(** * The trial-timing and interpolation engine of the EEG motor-imagery collector

  A shallow embedding of the pose library ([handPoses.js]), the pose
  interpolator ([interpolation.js]), the balanced block sequence generator
  and the per-frame phase state machines of the trial-based, the
  continuous-transition and the periodic paradigm.

  JavaScript numbers are modelled as exact rationals ([Qc], canonical
  fractions with Leibniz equality): every statement below is about the
  arithmetic the code writes down, not about IEEE-754 rounding. *)

From Stdlib Require Import QArith Qcanon Qround Lqa Lia ZArith.
From stdpp Require Import base numbers strings list gmap.

Local Open Scope Qc_scope.

(** ** Numbers *)

Module Num.

(** An integer literal of the source. *)
Definition lit (z : Z) : Qc := Qc_of_Z z.

(** A decimal literal [n / d] of the source, e.g. [0.15] is [frac 15 100]. *)
Definition frac (n : Z) (d : positive) : Qc := Q2Qc (n # d).

(** [Math.floor] *)
Definition floor (x : Qc) : Z := Qfloor x.

(** [Math.trunc], the rounding used by the [%] operator. *)
Definition trunc (x : Qc) : Z := Z.quot (Qnum x) (Z.pos (Qden x)).

(** [x % y] on numbers: the remainder has the sign of the dividend. *)
Definition rem (x y : Qc) : Qc := x - y * lit (trunc (x / y)).

(** [Math.min] *)
Definition min (x y : Qc) : Qc := if decide (x ≤ y) then x else y.

End Num.

(** Integer literals are written [num 10]. *)
Abbreviation num := Num.lit.

(** ** Poses

  A pose is the three finger groups, each a joint-angle object keyed by
  joint name.  The display fields [name] and [description] that the library
  entries also carry are presentation data and are left out. *)

Record Pose := mkPose {
  thumb : gmap string Qc;
  index : gmap string Qc;
  pinky : gmap string Qc
}.

(** ** Pose interpolator ([interpolation.js]) *)

Module Interpolation.








End Interpolation.

(** ** JavaScript values and arrays *)

Module Js.

(** What a property read on the pose library can produce: [undefined], a
    pose, or one of the built-ins every object literal inherits from
    [Object.prototype]. *)
Inductive value :=
  | VUndefined
  | VPose (p : Pose)
  | VBuiltin (name : string).

(** Objects and functions are truthy, [undefined] is falsy. *)
Definition truthy (v : value) : bool :=
  match v with
  | VUndefined => false
  | _ => true
  end.

(** The property names of [Object.prototype]. *)
Definition Object_prototype : list string :=
  [ "constructor"; "__defineGetter__"; "__defineSetter__"; "hasOwnProperty";
    "__lookupGetter__"; "__lookupSetter__"; "isPrototypeOf";
    "propertyIsEnumerable"; "toString"; "valueOf"; "__proto__";
    "toLocaleString" ].

(** [o[key]] for an object literal [o]: own properties first, then the
    prototype. *)
Definition get_property (o : gmap string Pose) (key : string) : value :=
  match o !! key with
  | Some p => VPose p
  | None => if decide (key ∈ Object_prototype) then VBuiltin key else VUndefined
  end.

(** An argument that is a string or missing. *)
Inductive arg :=
  | undefined
  | str (s : string).

Definition ToPropertyKey (a : arg) : string :=
  match a with
  | undefined => "undefined"
  | str s => s
  end.

(** [!ref.current] for a ref holding [null] or a number: [null] and [0] are
    falsy. *)
Definition falsy (o : option Qc) : bool :=
  match o with
  | None => true
  | Some x => bool_decide (x = 0)
  end.

(** Arrays of pose names; [None] is [undefined]. *)
Abbreviation elem := (option string).

(** [a[i]] *)
Definition get (a : list elem) (i : nat) : elem := mjoin (a !! i).

(** [a[i] = v]: writing at or past the end extends the array. *)
Definition set (a : list elem) (i : nat) (v : elem) : list elem :=
  if decide (i < length a)%nat then <[i:=v]> a
  else a ++ replicate (i - length a) None ++ [v].

(** [[a[i], a[j]] = [a[j], a[i]]]: both reads happen before both writes. *)
Definition swap (a : list elem) (i j : nat) : list elem :=
  let x := get a j in
  let y := get a i in
  set (set a i x) j y.

End Js.

(** ** Pose library ([handPoses.js]) *)

Module HandPoses.

(** A two-decimal literal: [pct 15] is [0.15]. *)
Definition pct (n : nat) : Qc := Num.frac (Z.of_nat n) 100.

Definition thumbJoints (cmc mcp ip : nat) : gmap string Qc :=
  {[ "cmc" := pct cmc; "mcp" := pct mcp; "ip" := pct ip ]}.

Definition fingerJoints (mcp pip dip : nat) : gmap string Qc :=
  {[ "mcp" := pct mcp; "pip" := pct pip; "dip" := pct dip ]}.

Definition pose (t i p : nat * nat * nat) : Pose :=
  {| thumb := thumbJoints t.1.1 t.1.2 t.2;
     index := fingerJoints i.1.1 i.1.2 i.2;
     pinky := fingerJoints p.1.1 p.1.2 p.2 |}.

Local Close Scope Qc_scope.

Definition neutral : Pose := pose (10, 15, 10) (15, 15, 10) (20, 20, 15).

(** The entries of [HAND_POSES] in source order. *)
Definition entries : list (string * Pose) :=
  [ ("neutral",          neutral);
    ("open",             pose (30, 0, 0)   (0, 0, 0)    (0, 0, 0));
    ("closedGrasp",      pose (70, 80, 70) (85, 90, 80) (90, 95, 85));
    ("thumbIndexPinch",  pose (85, 70, 50) (65, 70, 55) (30, 35, 25));
    ("indexExtension",   pose (40, 60, 50) (0, 0, 0)    (80, 85, 75));
    ("pinkyExtension",   pose (40, 60, 50) (80, 85, 75) (0, 0, 0));
    ("indexPinkySpan",   pose (50, 40, 30) (0, 0, 0)    (0, 0, 0));
    ("thumbOpposition",  pose (90, 30, 20) (20, 25, 15) (25, 30, 20));
    ("thumbPinkyPinch",  pose (100, 75, 60) (25, 30, 20) (70, 75, 60));
    ("threeFingerPinch", pose (90, 70, 55) (60, 65, 50) (65, 70, 55));
    ("indexHook",        pose (20, 20, 15) (10, 90, 85) (25, 30, 20));
    ("pinkyHook",        pose (20, 20, 15) (20, 25, 15) (10, 90, 85)) ].

Local Open Scope Qc_scope.

Definition HAND_POSES : gmap string Pose := list_to_map entries.

(** [Object.keys(HAND_POSES)] *)
Definition POSE_NAMES : list string := entries.*1.

(** [HAND_POSES[poseName] || HAND_POSES.neutral] *)
Definition getPose (poseName : Js.arg) : Js.value :=
  let v := Js.get_property HAND_POSES (Js.ToPropertyKey poseName) in
  if Js.truthy v then v else Js.get_property HAND_POSES "neutral".

End HandPoses.

(** ** Trial-based paradigm (rest, preparation, execution, returnCue) *)

Module TrialMode.

(** *** Balanced block sequence

    [Math.random] is modelled by the sequence [random] of its successive
    results; the cursor [c] counts the draws made so far. *)

Section Sequence.

Variable random : nat → Qc.

(** [Math.floor(Math.random() * m)], drawn at cursor [c]. *)
Definition randomIndex (m : nat) (c : nat) : nat :=
  Z.to_nat (Num.floor (random c * num (Z.of_nat m))).

(** The loop [for (let i = a.length - 1; i > 0; i--)] of [shuffle]. *)
Fixpoint shuffle_from (i : nat) (a : list Js.elem) (c : nat) : list Js.elem * nat :=
  match i with
  | O => (a, c)
  | S i' =>
      let j := randomIndex (i + 1) c in
      shuffle_from i' (Js.swap a i j) (S c)
  end.

Definition shuffle (arr : list Js.elem) (c : nat) : list Js.elem * nat :=
  shuffle_from (length arr - 1) arr c.

(** The body of the [if] that repairs a repeat across a block boundary. *)
Definition repair (sequence block : list Js.elem) (c : nat) : list Js.elem * nat :=
  if decide ((0 < length sequence)%nat
             ∧ Js.get block 0 = Js.get sequence (length sequence - 1))
  then
    let swapIdx := (1 + randomIndex (length block - 1) c)%nat in
    (Js.swap block 0 swapIdx, S c)
  else (block, c).

(** The [while (sequence.length < numTargets)] loop; [fuel] bounds the number
    of iterations and [None] means the bound was hit. *)
Fixpoint fill (fuel : nat) (pool : list Js.elem) (numTargets : nat)
    (sequence : list Js.elem) (c : nat) : option (list Js.elem) :=
  if decide (length sequence < numTargets)%nat then
    match fuel with
    | O => None
    | S fuel' =>
        let '(block, c1) := shuffle pool c in
        let '(block', c2) := repair sequence block c1 in
        fill fuel' pool numTargets (sequence ++ block') c2
    end
  else Some sequence.

(** The sequence-initialisation effect: the pool is the enabled names, or
    every name when none is enabled; the result is [finalSequence]. *)
Definition balancedSequence (availablePoses : list string) (numTargets : nat)
    : option (list Js.elem) :=
  let pool :=
    if decide (0 < length availablePoses)%nat then availablePoses
    else HandPoses.POSE_NAMES in
  take numTargets <$> fill numTargets (Some <$> pool) numTargets [] 0.

End Sequence.

(** *** Phase state machine *)

Inductive phase := rest | preparation | execution | returnCue.

#[export] Instance trial_phase_eq_dec : EqDecision phase.
Proof. solve_decision. Defined.

Definition PHASE_ORDER : list phase := [rest; preparation; execution; returnCue].

Record settings := mkSettings {
  preparationDuration : Qc;
  executionDuration : Qc;
  returnCueDuration : Qc;
  restDuration : Qc
}.

Definition defaults : settings :=
  {| preparationDuration := num 1000; executionDuration := num 4000;
     returnCueDuration := num 500; restDuration := num 2000 |}.

Definition getPhaseDuration (cfg : settings) (phaseName : phase) : Qc :=
  match phaseName with
  | preparation => preparationDuration cfg
  | execution => executionDuration cfg
  | returnCue => returnCueDuration cfg
  | rest => restDuration cfg
  end.

(** [PHASE_ORDER.indexOf(p)], [-1] when absent. *)
Definition indexOf (p : phase) (l : list phase) : Z :=
  match list_find (λ q, q = p) l with
  | Some (i, _) => Z.of_nat i
  | None => (-1)%Z
  end.

(** The refs and flags the animation loop reads and writes; [None] in a
    timestamp ref is [null]. *)
Record refs := mkRefs {
  isRunning : bool;
  isPaused : bool;
  sessionStarted : bool;
  lastTimestampRef : option Qc;
  sessionStartTimeRef : option Qc;
  phaseRef : phase;
  timeInPhaseRef : Qc;
  currentPoseIndexRef : nat
}.

Definition initial : refs :=
  {| isRunning := false; isPaused := false; sessionStarted := false;
     lastTimestampRef := None; sessionStartTimeRef := None;
     phaseRef := rest; timeInPhaseRef := 0; currentPoseIndexRef := 0 |}.

(** What one frame did to the phase. *)
Inductive event := PhaseChange | Complete.

Definition set_clock (r : refs) (last start : option Qc) : refs :=
  mkRefs (isRunning r) (isPaused r) (sessionStarted r) last start
         (phaseRef r) (timeInPhaseRef r) (currentPoseIndexRef r).

Definition set_time (r : refs) (t : Qc) : refs :=
  mkRefs (isRunning r) (isPaused r) (sessionStarted r) (lastTimestampRef r)
         (sessionStartTimeRef r) (phaseRef r) t (currentPoseIndexRef r).

Definition set_phase (r : refs) (p : phase) : refs :=
  mkRefs (isRunning r) (isPaused r) (sessionStarted r) (lastTimestampRef r)
         (sessionStartTimeRef r) p (timeInPhaseRef r) (currentPoseIndexRef r).

Definition set_index (r : refs) (i : nat) : refs :=
  mkRefs (isRunning r) (isPaused r) (sessionStarted r) (lastTimestampRef r)
         (sessionStartTimeRef r) (phaseRef r) (timeInPhaseRef r) i.

Definition set_flags (r : refs) (running paused started : bool) : refs :=
  mkRefs running paused started (lastTimestampRef r) (sessionStartTimeRef r)
         (phaseRef r) (timeInPhaseRef r) (currentPoseIndexRef r).

Definition completeSession (r : refs) : refs :=
  set_flags r false false (sessionStarted r).

(** The part of [animate] after [deltaTime] is known.  [seqLen] is
    [poseSequenceRef.current.length]. *)
Definition advance (cfg : settings) (seqLen : nat) (deltaTime : Qc) (r : refs)
    : refs * list event :=
  let currentPhase := phaseRef r in
  let currentPhaseDuration := getPhaseDuration cfg currentPhase in
  let newTime := timeInPhaseRef r + deltaTime in
  let r := set_time r newTime in
  if decide (currentPhaseDuration ≤ newTime) then
    let currentPhaseIdx := indexOf currentPhase PHASE_ORDER in
    if decide (currentPhaseIdx < Z.of_nat (length PHASE_ORDER) - 1)%Z then
      let nextPhase := default rest (PHASE_ORDER !! Z.to_nat (currentPhaseIdx + 1)) in
      (set_time (set_phase r nextPhase) 0, [PhaseChange])
    else
      let nextIndex := (currentPoseIndexRef r + 1)%nat in
      if decide (seqLen ≤ nextIndex)%nat then (completeSession r, [Complete])
      else (set_time (set_phase (set_index r nextIndex) rest) 0, [PhaseChange])
  else (r, []).

Definition animate (cfg : settings) (seqLen : nat) (timestamp : Qc) (r : refs)
    : refs * list event :=
  let r :=
    if Js.falsy (lastTimestampRef r)
    then set_clock r (Some timestamp) (Some timestamp) else r in
  let deltaTime := timestamp - default 0 (lastTimestampRef r) in
  let r := set_clock r (Some timestamp) (sessionStartTimeRef r) in
  advance cfg seqLen deltaTime r.

(** The start/stop effect, run when [isRunning] or [isPaused] changed. *)
Definition loopEffect (r : refs) : refs :=
  if isRunning r && negb (isPaused r)
  then set_time (set_clock r None (sessionStartTimeRef r)) 0
  else r.

Definition startSession (r : refs) : refs :=
  let r := if sessionStarted r then r else set_phase r rest in
  set_flags r true false true.

Definition pauseSession (r : refs) : refs :=
  set_flags r (isRunning r) (negb (isPaused r)) (sessionStarted r).

(** What can happen to the component: a frame callback or a button. *)
Inductive input := Frame (timestamp : Qc) | Start | Pause.

Definition flags_changed (r r' : refs) : bool :=
  negb (bool_decide (isRunning r = isRunning r' ∧ isPaused r = isPaused r')).

(** A frame callback is pending only while running and not paused. *)
Definition step (cfg : settings) (seqLen : nat) (i : input) (r : refs)
    : refs * list event :=
  match i with
  | Frame timestamp =>
      if isRunning r && negb (isPaused r) then animate cfg seqLen timestamp r
      else (r, [])
  | Start =>
      let r' := startSession r in
      (if flags_changed r r' then loopEffect r' else r', [])
  | Pause =>
      let r' := pauseSession r in
      (if flags_changed r r' then loopEffect r' else r', [])
  end.

Fixpoint run (cfg : settings) (seqLen : nat) (inputs : list input) (r : refs)
    : refs * list event :=
  match inputs with
  | [] => (r, [])
  | i :: inputs' =>
      let '(r1, e1) := step cfg seqLen i r in
      let '(r2, e2) := run cfg seqLen inputs' r1 in
      (r2, e1 ++ e2)
  end.

(** Feeding delta times straight to the state machine; a tick reaches it only
    while the session runs. *)
Fixpoint feed (cfg : settings) (seqLen : nat) (deltas : list Qc) (r : refs)
    : refs * list event :=
  match deltas with
  | [] => (r, [])
  | d :: ds =>
      if isRunning r && negb (isPaused r) then
        let '(r1, e1) := advance cfg seqLen d r in
        let '(r2, e2) := feed cfg seqLen ds r1 in
        (r2, e1 ++ e2)
      else (r, [])
  end.

(** The state right after the Start button on a fresh component. *)
Definition started : refs := loopEffect (startSession initial).

End TrialMode.

(** ** Sample logger *)

Module Logger.

(** [1000 / settings.logFrameRate] *)
Definition logInterval (logFrameRate : Qc) : Qc := num 1000 / logFrameRate.

(** The test the animation loops make: [newTime % logInterval < deltaTime]. *)
Definition logDue (logInterval newTime deltaTime : Qc) : bool :=
  bool_decide (Num.rem newTime logInterval < deltaTime).


End Logger.

(** ** Continuous-transition paradigm (rest, transition) *)

Module ContinuousMode.

Inductive phase := rest | transition.

#[export] Instance continuous_phase_eq_dec : EqDecision phase.
Proof. solve_decision. Defined.

Record settings := mkSettings {
  restDuration : Qc;
  transitionDuration : Qc;
  logFrameRate : Qc
}.

Definition defaults : settings :=
  {| restDuration := num 2000; transitionDuration := num 1200; logFrameRate := num 30 |}.

(** A logged sample, without its two poses. *)
Record dataPoint := mkPoint {
  timestamp : Qc;
  sessionTime : Qc;
  phaseName : phase;
  poseIndex : nat
}.

Record refs := mkRefs {
  isRunning : bool;
  isPaused : bool;
  sessionStarted : bool;
  lastTimestampRef : option Qc;
  sessionStartTimeRef : option Qc;
  phaseRef : phase;
  timeInPhaseRef : Qc;
  currentPoseIndexRef : nat;
  dataLog : list dataPoint
}.

Definition initial : refs :=
  {| isRunning := false; isPaused := false; sessionStarted := false;
     lastTimestampRef := None; sessionStartTimeRef := None;
     phaseRef := rest; timeInPhaseRef := 0; currentPoseIndexRef := 0;
     dataLog := [] |}.

Inductive event := PhaseChange | Complete.

Definition set_clock (r : refs) (last start : option Qc) : refs :=
  mkRefs (isRunning r) (isPaused r) (sessionStarted r) last start
         (phaseRef r) (timeInPhaseRef r) (currentPoseIndexRef r) (dataLog r).

Definition set_time (r : refs) (t : Qc) : refs :=
  mkRefs (isRunning r) (isPaused r) (sessionStarted r) (lastTimestampRef r)
         (sessionStartTimeRef r) (phaseRef r) t (currentPoseIndexRef r) (dataLog r).

Definition set_phase (r : refs) (p : phase) : refs :=
  mkRefs (isRunning r) (isPaused r) (sessionStarted r) (lastTimestampRef r)
         (sessionStartTimeRef r) p (timeInPhaseRef r) (currentPoseIndexRef r)
         (dataLog r).

Definition set_index (r : refs) (i : nat) : refs :=
  mkRefs (isRunning r) (isPaused r) (sessionStarted r) (lastTimestampRef r)
         (sessionStartTimeRef r) (phaseRef r) (timeInPhaseRef r) i (dataLog r).

Definition set_flags (r : refs) (running paused started : bool) : refs :=
  mkRefs running paused started (lastTimestampRef r) (sessionStartTimeRef r)
         (phaseRef r) (timeInPhaseRef r) (currentPoseIndexRef r) (dataLog r).

Definition set_log (r : refs) (l : list dataPoint) : refs :=
  mkRefs (isRunning r) (isPaused r) (sessionStarted r) (lastTimestampRef r)
         (sessionStartTimeRef r) (phaseRef r) (timeInPhaseRef r)
         (currentPoseIndexRef r) l.

(** [logDataPoint]: appends to [dataLog]. *)
Definition logDataPoint (r : refs) (ts : Qc) (p : phase) (i : nat) : refs :=
  set_log r (dataLog r ++ [mkPoint ts (ts - default 0 (sessionStartTimeRef r)) p i]).

Definition completeSession (r : refs) : refs :=
  set_flags r false false (sessionStarted r).

(** The part of [animate] after [deltaTime] is known. *)
Definition advance (cfg : settings) (seqLen : nat) (ts deltaTime : Qc) (r : refs)
    : refs * list event :=
  let currentPhase := phaseRef r in
  let currentPhaseDuration :=
    match currentPhase with
    | rest => restDuration cfg
    | transition => transitionDuration cfg
    end in
  let newTime := timeInPhaseRef r + deltaTime in
  let r := set_time r newTime in
  let r :=
    if Logger.logDue (Logger.logInterval (logFrameRate cfg)) newTime deltaTime
    then logDataPoint r ts currentPhase (currentPoseIndexRef r)
    else r in
  if decide (currentPhaseDuration ≤ newTime) then
    match currentPhase with
    | rest =>
        let nextIndex := (currentPoseIndexRef r + 1)%nat in
        if decide (seqLen ≤ nextIndex)%nat then (completeSession r, [Complete])
        else (set_time (set_phase (set_index r nextIndex) transition) 0,
              [PhaseChange])
    | transition => (set_time (set_phase r rest) 0, [PhaseChange])
    end
  else (r, []).

Definition animate (cfg : settings) (seqLen : nat) (ts : Qc) (r : refs)
    : refs * list event :=
  let r :=
    if Js.falsy (lastTimestampRef r)
    then set_clock r (Some ts) (Some ts) else r in
  let deltaTime := ts - default 0 (lastTimestampRef r) in
  let r := set_clock r (Some ts) (sessionStartTimeRef r) in
  advance cfg seqLen ts deltaTime r.

(** The start/stop effect, run when [isRunning] or [isPaused] changed. *)
Definition loopEffect (r : refs) : refs :=
  if isRunning r && negb (isPaused r)
  then set_time (set_clock r None (sessionStartTimeRef r)) 0
  else r.

Definition startSession (r : refs) : refs :=
  let r := if sessionStarted r then r else set_log r [] in
  set_flags r true false true.

Definition pauseSession (r : refs) : refs :=
  set_flags r (isRunning r) (negb (isPaused r)) (sessionStarted r).

Inductive input := Frame (timestamp : Qc) | Start | Pause.

Definition flags_changed (r r' : refs) : bool :=
  negb (bool_decide (isRunning r = isRunning r' ∧ isPaused r = isPaused r')).

Definition step (cfg : settings) (seqLen : nat) (i : input) (r : refs)
    : refs * list event :=
  match i with
  | Frame ts =>
      if isRunning r && negb (isPaused r) then animate cfg seqLen ts r
      else (r, [])
  | Start =>
      let r' := startSession r in
      (if flags_changed r r' then loopEffect r' else r', [])
  | Pause =>
      let r' := pauseSession r in
      (if flags_changed r r' then loopEffect r' else r', [])
  end.

Fixpoint run (cfg : settings) (seqLen : nat) (inputs : list input) (r : refs)
    : refs * list event :=
  match inputs with
  | [] => (r, [])
  | i :: inputs' =>
      let '(r1, e1) := step cfg seqLen i r in
      let '(r2, e2) := run cfg seqLen inputs' r1 in
      (r2, e1 ++ e2)
  end.

(** Feeding delta times straight to the state machine (the timestamp only
    labels log records and is taken as the running sum). *)
Fixpoint feed (cfg : settings) (seqLen : nat) (deltas : list Qc) (r : refs)
    : refs * list event :=
  match deltas with
  | [] => (r, [])
  | d :: ds =>
      if isRunning r && negb (isPaused r) then
        let ts := default 0 (lastTimestampRef r) + d in
        let '(r1, e1) :=
          advance cfg seqLen ts d (set_clock r (Some ts) (sessionStartTimeRef r)) in
        let '(r2, e2) := feed cfg seqLen ds r1 in
        (r2, e1 ++ e2)
      else (r, [])
  end.

(** The state right after the Start button on a fresh component. *)
Definition started : refs := loopEffect (startSession initial).

End ContinuousMode.

(** ** Periodic paradigm (prep, active with beats) *)

Module PeriodicMode.

Inductive phase := prep | active.

#[export] Instance periodic_phase_eq_dec : EqDecision phase.
Proof. solve_decision. Defined.

Record settings := mkSettings {
  prepDuration : Qc;
  activeDuration : Qc;
  frequency : Qc;
  transitionDuration : Qc;
  logFrameRate : Qc
}.

Definition defaults : settings :=
  {| prepDuration := num 2000; activeDuration := num 10000;
     frequency := Num.frac 8 10; transitionDuration := num 300;
     logFrameRate := num 30 |}.

(** [1000 / settings.frequency] *)
Definition beatInterval (cfg : settings) : Qc := num 1000 / frequency cfg.

Record dataPoint := mkPoint {
  timestamp : Qc;
  sessionTime : Qc;
  phaseName : phase;
  trialIndex : nat;
  beatNumber : nat;
  movingToTarget : bool
}.

Record refs := mkRefs {
  isRunning : bool;
  isPaused : bool;
  sessionStarted : bool;
  lastTimestampRef : option Qc;
  sessionStartTimeRef : option Qc;
  phaseRef : phase;
  timeInPhaseRef : Qc;
  currentTrialIndexRef : nat;
  isMovingToTargetRef : bool;
  beatCountRef : nat;
  lastBeatTimeRef : Qc;
  transitionStartTimeRef : Qc;
  dataLog : list dataPoint
}.

Definition initial : refs :=
  {| isRunning := false; isPaused := false; sessionStarted := false;
     lastTimestampRef := None; sessionStartTimeRef := None;
     phaseRef := prep; timeInPhaseRef := 0; currentTrialIndexRef := 0;
     isMovingToTargetRef := false; beatCountRef := 0;
     lastBeatTimeRef := 0; transitionStartTimeRef := 0; dataLog := [] |}.

(** [Tick] is a metronome click ([playTick]); [Beat b] is a beat that set
    [isMovingToTarget] to [b]. *)
Inductive event := Tick | Beat (movingToTarget : bool) | PhaseChange | Complete.

Definition set_clock (r : refs) (last start : option Qc) : refs :=
  mkRefs (isRunning r) (isPaused r) (sessionStarted r) last start
         (phaseRef r) (timeInPhaseRef r) (currentTrialIndexRef r)
         (isMovingToTargetRef r) (beatCountRef r) (lastBeatTimeRef r)
         (transitionStartTimeRef r) (dataLog r).

Definition set_time (r : refs) (t : Qc) : refs :=
  mkRefs (isRunning r) (isPaused r) (sessionStarted r) (lastTimestampRef r)
         (sessionStartTimeRef r) (phaseRef r) t (currentTrialIndexRef r)
         (isMovingToTargetRef r) (beatCountRef r) (lastBeatTimeRef r)
         (transitionStartTimeRef r) (dataLog r).

Definition set_phase (r : refs) (p : phase) : refs :=
  mkRefs (isRunning r) (isPaused r) (sessionStarted r) (lastTimestampRef r)
         (sessionStartTimeRef r) p (timeInPhaseRef r) (currentTrialIndexRef r)
         (isMovingToTargetRef r) (beatCountRef r) (lastBeatTimeRef r)
         (transitionStartTimeRef r) (dataLog r).

Definition set_index (r : refs) (i : nat) : refs :=
  mkRefs (isRunning r) (isPaused r) (sessionStarted r) (lastTimestampRef r)
         (sessionStartTimeRef r) (phaseRef r) (timeInPhaseRef r) i
         (isMovingToTargetRef r) (beatCountRef r) (lastBeatTimeRef r)
         (transitionStartTimeRef r) (dataLog r).

Definition set_moving (r : refs) (b : bool) : refs :=
  mkRefs (isRunning r) (isPaused r) (sessionStarted r) (lastTimestampRef r)
         (sessionStartTimeRef r) (phaseRef r) (timeInPhaseRef r)
         (currentTrialIndexRef r) b (beatCountRef r) (lastBeatTimeRef r)
         (transitionStartTimeRef r) (dataLog r).

Definition set_beatCount (r : refs) (n : nat) : refs :=
  mkRefs (isRunning r) (isPaused r) (sessionStarted r) (lastTimestampRef r)
         (sessionStartTimeRef r) (phaseRef r) (timeInPhaseRef r)
         (currentTrialIndexRef r) (isMovingToTargetRef r) n (lastBeatTimeRef r)
         (transitionStartTimeRef r) (dataLog r).

Definition set_lastBeat (r : refs) (t : Qc) : refs :=
  mkRefs (isRunning r) (isPaused r) (sessionStarted r) (lastTimestampRef r)
         (sessionStartTimeRef r) (phaseRef r) (timeInPhaseRef r)
         (currentTrialIndexRef r) (isMovingToTargetRef r) (beatCountRef r) t
         (transitionStartTimeRef r) (dataLog r).

Definition set_transitionStart (r : refs) (t : Qc) : refs :=
  mkRefs (isRunning r) (isPaused r) (sessionStarted r) (lastTimestampRef r)
         (sessionStartTimeRef r) (phaseRef r) (timeInPhaseRef r)
         (currentTrialIndexRef r) (isMovingToTargetRef r) (beatCountRef r)
         (lastBeatTimeRef r) t (dataLog r).

Definition set_flags (r : refs) (running paused started : bool) : refs :=
  mkRefs running paused started (lastTimestampRef r) (sessionStartTimeRef r)
         (phaseRef r) (timeInPhaseRef r) (currentTrialIndexRef r)
         (isMovingToTargetRef r) (beatCountRef r) (lastBeatTimeRef r)
         (transitionStartTimeRef r) (dataLog r).

Definition set_log (r : refs) (l : list dataPoint) : refs :=
  mkRefs (isRunning r) (isPaused r) (sessionStarted r) (lastTimestampRef r)
         (sessionStartTimeRef r) (phaseRef r) (timeInPhaseRef r)
         (currentTrialIndexRef r) (isMovingToTargetRef r) (beatCountRef r)
         (lastBeatTimeRef r) (transitionStartTimeRef r) l.

Definition logDataPoint (r : refs) (ts : Qc) (p : phase) (beatNum : nat)
    (moving : bool) : refs :=
  set_log r (dataLog r ++
    [mkPoint ts (ts - default 0 (sessionStartTimeRef r)) p
             (currentTrialIndexRef r) beatNum moving]).

Definition completeSession (r : refs) : refs :=
  set_flags r false false (sessionStarted r).

(** The [if (timeSinceLastBeat >= beatInterval)] block of the active branch. *)
Definition beatCheck (cfg : settings) (ts : Qc) (r : refs) : refs * list event :=
  let timeSinceLastBeat := ts - lastBeatTimeRef r in
  if decide (beatInterval cfg ≤ timeSinceLastBeat) then
    let r := set_lastBeat r ts in
    let newMovingToTarget := negb (isMovingToTargetRef r) in
    let r := set_moving r newMovingToTarget in
    let r := set_transitionStart r ts in
    let r := set_beatCount r (beatCountRef r + 1) in
    (r, [Tick; Beat newMovingToTarget])
  else (r, []).

(** The phase-specific branch: logging in [prep]; beat, then logging, in
    [active]. *)
Definition phaseBody (cfg : settings) (ts newTime deltaTime : Qc) (r : refs)
    : refs * list event :=
  let due := Logger.logDue (Logger.logInterval (logFrameRate cfg)) newTime deltaTime in
  match phaseRef r with
  | prep => (if due then logDataPoint r ts prep 0 false else r, [])
  | active =>
      let '(r, es) := beatCheck cfg ts r in
      (if due then logDataPoint r ts active (beatCountRef r) (isMovingToTargetRef r)
       else r, es)
  end.

(** The [if (newTime >= currentPhaseDuration)] block; [currentPhase] is the
    phase read at the top of the frame. *)
Definition phaseTransition (seqLen : nat) (ts : Qc) (currentPhase : phase)
    (r : refs) : refs * list event :=
  match currentPhase with
  | prep =>
      let r := set_time (set_phase r active) 0 in
      let r := set_moving (set_beatCount r 0) false in
      let r := set_transitionStart (set_lastBeat r ts) ts in
      (r, [PhaseChange; Tick])
  | active =>
      let nextTrialIndex := (currentTrialIndexRef r + 1)%nat in
      if decide (seqLen ≤ nextTrialIndex)%nat then (completeSession r, [Complete])
      else
        let r := set_time (set_phase (set_index r nextTrialIndex) prep) 0 in
        let r := set_moving (set_beatCount r 0) false in
        (r, [PhaseChange])
  end.

(** The part of [animate] after [deltaTime] is known. *)
Definition advance (cfg : settings) (seqLen : nat) (ts deltaTime : Qc) (r : refs)
    : refs * list event :=
  let currentPhase := phaseRef r in
  let currentPhaseDuration :=
    match currentPhase with
    | prep => prepDuration cfg
    | active => activeDuration cfg
    end in
  let newTime := timeInPhaseRef r + deltaTime in
  let r := set_time r newTime in
  let '(r, es) := phaseBody cfg ts newTime deltaTime r in
  if decide (currentPhaseDuration ≤ newTime) then
    let '(r, es') := phaseTransition seqLen ts currentPhase r in
    (r, es ++ es')
  else (r, es).

Definition animate (cfg : settings) (seqLen : nat) (ts : Qc) (r : refs)
    : refs * list event :=
  let r :=
    if Js.falsy (lastTimestampRef r)
    then set_transitionStart (set_lastBeat (set_clock r (Some ts) (Some ts)) ts) ts
    else r in
  let deltaTime := ts - default 0 (lastTimestampRef r) in
  let r := set_clock r (Some ts) (sessionStartTimeRef r) in
  advance cfg seqLen ts deltaTime r.

(** The start/stop effect, run when [isRunning] or [isPaused] changed. *)
Definition loopEffect (r : refs) : refs :=
  if isRunning r && negb (isPaused r)
  then set_lastBeat (set_time (set_clock r None (sessionStartTimeRef r)) 0) 0
  else r.

Definition startSession (r : refs) : refs :=
  let r := if sessionStarted r then r else set_log r [] in
  set_flags r true false true.

Definition pauseSession (r : refs) : refs :=
  set_flags r (isRunning r) (negb (isPaused r)) (sessionStarted r).

Inductive input := Frame (timestamp : Qc) | Start | Pause.

Definition flags_changed (r r' : refs) : bool :=
  negb (bool_decide (isRunning r = isRunning r' ∧ isPaused r = isPaused r')).

Definition step (cfg : settings) (seqLen : nat) (i : input) (r : refs)
    : refs * list event :=
  match i with
  | Frame ts =>
      if isRunning r && negb (isPaused r) then animate cfg seqLen ts r
      else (r, [])
  | Start =>
      let r' := startSession r in
      (if flags_changed r r' then loopEffect r' else r', [])
  | Pause =>
      let r' := pauseSession r in
      (if flags_changed r r' then loopEffect r' else r', [])
  end.

Fixpoint run (cfg : settings) (seqLen : nat) (inputs : list input) (r : refs)
    : refs * list event :=
  match inputs with
  | [] => (r, [])
  | i :: inputs' =>
      let '(r1, e1) := step cfg seqLen i r in
      let '(r2, e2) := run cfg seqLen inputs' r1 in
      (r2, e1 ++ e2)
  end.

(** The beats among the events of a run. *)
Definition beats (es : list event) : list bool :=
  omap (λ e, match e with Beat b => Some b | _ => None end) es.

(** The state right after the Start button on a fresh component. *)
Definition started : refs := loopEffect (startSession initial).

End PeriodicMode.

(** ** Predicates of the specification *)

Module Spec.





(** How often the name [x] occurs in a sequence. *)
Definition occurrences (x : string) (l : list Js.elem) : nat :=
  length (filter (λ e, e = Some x) l).

(** The beat state of the periodic machine: time of the last beat, the
    direction flag and the beat count. *)
Definition periodic_view (r : PeriodicMode.refs) : Qc * bool * nat :=
  (PeriodicMode.lastBeatTimeRef r, PeriodicMode.isMovingToTargetRef r,
   PeriodicMode.beatCountRef r).

(** The machine is in an active phase that was entered at the frame with
    timestamp [T0], and its latest frame had timestamp [last]. *)
Definition active_since (T0 last : Qc) (r : PeriodicMode.refs) : Prop :=
  PeriodicMode.isRunning r = true ∧ PeriodicMode.isPaused r = false
  ∧ PeriodicMode.phaseRef r = PeriodicMode.active
  ∧ PeriodicMode.lastTimestampRef r = Some last
  ∧ PeriodicMode.timeInPhaseRef r = last - T0.

(** The state in which the prep-to-active transition leaves the machine. *)
Definition active_entry (T0 : Qc) (r : PeriodicMode.refs) : Prop :=
  active_since T0 T0 r ∧ periodic_view r = (T0, false, 0%nat).

(** The active phase is over: the machine went back to [prep] for the next
    trial or completed the session. *)
Definition active_over (r : PeriodicMode.refs) : Prop :=
  PeriodicMode.phaseRef r = PeriodicMode.prep ∨ PeriodicMode.isRunning r = false.

(** What one frame at [ts] does to the beat state when beats are [interval]
    apart, and the direction of the beat it fires, if any. *)
Definition beat_step (interval ts : Qc) (v : Qc * bool * nat)
    : (Qc * bool * nat) * list bool :=
  if decide (interval ≤ ts - v.1.1)
  then ((ts, negb v.1.2, (v.2 + 1)%nat), [negb v.1.2])
  else (v, []).

(** [beat_step] over a list of frames, collecting the beats. *)
Fixpoint beat_run (interval : Qc) (fs : list Qc) (v : Qc * bool * nat)
    : (Qc * bool * nat) * list bool :=
  match fs with
  | [] => (v, [])
  | ts :: fs' =>
      let '(v1, b1) := beat_step interval ts v in
      let '(v2, b2) := beat_run interval fs' v1 in
      (v2, b1 ++ b2)
  end.

(** Frames with timestamps from [T0] on and before [hi]. *)
Definition frames_within (T0 hi : Qc) (fs : list Qc) : Prop :=
  Forall (λ ts, T0 ≤ ts ∧ ts < hi) fs.

(** [ceil (n / k)] on naturals. *)
Definition ceil_div (n k : nat) : nat := (n + k - 1) / k.

(** Draws of [Math.random] lie in [[0,1)]. *)
Definition valid_random (random : nat → Qc) : Prop :=
  ∀ c, 0 ≤ random c ∧ random c < 1.

(** The sum of a list of delta times. *)
Definition total (ds : list Qc) : Qc := foldr Qcplus 0 ds.

Definition nonneg (ds : list Qc) : Prop := Forall (λ d, 0 ≤ d) ds.

(** Ticks that add up to exactly [duration]. *)
Definition fills (duration : Qc) (ds : list Qc) : Prop :=
  nonneg ds ∧ total ds = duration.

(** The place of the trial-based machine in the session, and the place that
    follows it in the phase ordering. *)
Definition trial_slot (r : TrialMode.refs) : TrialMode.phase * nat :=
  (TrialMode.phaseRef r, TrialMode.currentPoseIndexRef r).

Definition trial_next (s : TrialMode.phase * nat) : TrialMode.phase * nat :=
  match s.1 with
  | TrialMode.rest => (TrialMode.preparation, s.2)
  | TrialMode.preparation => (TrialMode.execution, s.2)
  | TrialMode.execution => (TrialMode.returnCue, s.2)
  | TrialMode.returnCue => (TrialMode.rest, S s.2)
  end.

(** The same for the continuous-transition machine: the rest of target [i]
    is followed by the transition to target [i + 1]. *)
Definition continuous_slot (r : ContinuousMode.refs) : ContinuousMode.phase * nat :=
  (ContinuousMode.phaseRef r, ContinuousMode.currentPoseIndexRef r).

Definition continuous_next (s : ContinuousMode.phase * nat)
    : ContinuousMode.phase * nat :=
  match s.1 with
  | ContinuousMode.rest => (ContinuousMode.transition, S s.2)
  | ContinuousMode.transition => (ContinuousMode.rest, s.2)
  end.

(** All four durations are positive. *)
Definition trial_positive (cfg : TrialMode.settings) : Prop :=
  ∀ p, 0 < TrialMode.getPhaseDuration cfg p.

(** The ticks of one trial, phase by phase, each group adding up to the
    duration of its phase. *)
Definition trial_aligned (cfg : TrialMode.settings)
    (t : list Qc * list Qc * list Qc * list Qc) : Prop :=
  fills (TrialMode.restDuration cfg) t.1.1.1
  ∧ fills (TrialMode.preparationDuration cfg) t.1.1.2
  ∧ fills (TrialMode.executionDuration cfg) t.1.2
  ∧ fills (TrialMode.returnCueDuration cfg) t.2.

Definition trial_ticks (t : list Qc * list Qc * list Qc * list Qc) : list Qc :=
  t.1.1.1 ++ t.1.1.2 ++ t.1.2 ++ t.2.

(** The loop is scheduled: the session runs and is not paused. *)
Definition trial_running (r : TrialMode.refs) : Prop :=
  TrialMode.isRunning r = true ∧ TrialMode.isPaused r = false.

(** The last phase of the last trial. *)
Definition trial_last (seqLen : nat) (r : TrialMode.refs) : Prop :=
  TrialMode.phaseRef r = TrialMode.returnCue
  ∧ (seqLen ≤ TrialMode.currentPoseIndexRef r + 1)%nat.

(** What feeding one phase's worth of ticks must do: one transition event,
    which is the completion of the session at the last phase of the last
    trial and otherwise a phase change that resets [timeInPhase]. *)
Definition trial_one_transition (seqLen : nat) (r : TrialMode.refs)
    (out : TrialMode.refs * list TrialMode.event) : Prop :=
  (trial_last seqLen r →
     out.2 = [TrialMode.Complete] ∧ TrialMode.isRunning out.1 = false)
  ∧ (¬ trial_last seqLen r →
     out.2 = [TrialMode.PhaseChange]
     ∧ trial_slot out.1 = trial_next (trial_slot r)
     ∧ TrialMode.timeInPhaseRef out.1 = 0
     ∧ trial_running out.1).

(** The same notions for the continuous-transition machine.  Its session is
    the rest of target 0 followed, for every further target, by a transition
    and a rest; it completes at the end of the last rest. *)
Definition continuous_positive (cfg : ContinuousMode.settings) : Prop :=
  0 < ContinuousMode.restDuration cfg ∧ 0 < ContinuousMode.transitionDuration cfg.

Definition continuous_duration (cfg : ContinuousMode.settings)
    (p : ContinuousMode.phase) : Qc :=
  match p with
  | ContinuousMode.rest => ContinuousMode.restDuration cfg
  | ContinuousMode.transition => ContinuousMode.transitionDuration cfg
  end.

Definition continuous_running (r : ContinuousMode.refs) : Prop :=
  ContinuousMode.isRunning r = true ∧ ContinuousMode.isPaused r = false.

Definition continuous_last (seqLen : nat) (r : ContinuousMode.refs) : Prop :=
  ContinuousMode.phaseRef r = ContinuousMode.rest
  ∧ (seqLen ≤ ContinuousMode.currentPoseIndexRef r + 1)%nat.

Definition continuous_one_transition (seqLen : nat) (r : ContinuousMode.refs)
    (out : ContinuousMode.refs * list ContinuousMode.event) : Prop :=
  (continuous_last seqLen r →
     out.2 = [ContinuousMode.Complete] ∧ ContinuousMode.isRunning out.1 = false)
  ∧ (¬ continuous_last seqLen r →
     out.2 = [ContinuousMode.PhaseChange]
     ∧ continuous_slot out.1 = continuous_next (continuous_slot r)
     ∧ ContinuousMode.timeInPhaseRef out.1 = 0
     ∧ continuous_running out.1).

Definition continuous_aligned (cfg : ContinuousMode.settings)
    (p : list Qc * list Qc) : Prop :=
  fills (ContinuousMode.transitionDuration cfg) p.1
  ∧ fills (ContinuousMode.restDuration cfg) p.2.

Definition continuous_ticks (p : list Qc * list Qc) : list Qc := p.1 ++ p.2.

(** The fields of the continuous machine that decide its timing. *)
Definition continuous_core (r : ContinuousMode.refs)
    : bool * bool * ContinuousMode.phase * Qc * nat :=
  (ContinuousMode.isRunning r, ContinuousMode.isPaused r,
   ContinuousMode.phaseRef r, ContinuousMode.timeInPhaseRef r,
   ContinuousMode.currentPoseIndexRef r).

(** The nominal duration of a session of [n] trials ([totalDuration]). *)
Definition trial_session_duration (cfg : TrialMode.settings) (n : nat) : Qc :=
  num (Z.of_nat n)
  * (TrialMode.preparationDuration cfg + TrialMode.executionDuration cfg
     + TrialMode.returnCueDuration cfg + TrialMode.restDuration cfg).

End Spec.

(** * Facts *)

(** ** Arithmetic on [Qc] through the underlying fractions *)

Lemma this_plus (x y : Qc) : (this (x + y) == this x + this y)%Q.
Proof. apply Qred_correct. Qed.

Lemma this_mult (x y : Qc) : (this (x * y) == this x * this y)%Q.
Proof. apply Qred_correct. Qed.

Lemma this_opp (x : Qc) : (this (- x) == - this x)%Q.
Proof. apply Qred_correct. Qed.

Lemma this_minus (x y : Qc) : (this (x - y) == this x - this y)%Q.
Proof. unfold Qcminus. rewrite this_plus, this_opp. reflexivity. Qed.

Lemma this_inv (x : Qc) : (this (/ x) == / this x)%Q.
Proof. apply Qred_correct. Qed.

Lemma this_div (x y : Qc) : (this (x / y) == this x / this y)%Q.
Proof. unfold Qcdiv. rewrite this_mult, this_inv. reflexivity. Qed.

Lemma this_lit (z : Z) : this (num z) = inject_Z z.
Proof. reflexivity. Qed.

Lemma this_frac n d : (this (Num.frac n d) == n # d)%Q.
Proof. apply Qred_correct. Qed.

Lemma this_0 : this 0 = 0%Q.
Proof. reflexivity. Qed.

Lemma this_1 : this 1 = 1%Q.
Proof. reflexivity. Qed.

(** Moves the goal and the hypotheses on [Qc] to the underlying fractions,
    where [lra] and [nra] apply. *)
Ltac to_Q :=
  try apply Qc_is_canon;
  unfold Qcle, Qclt in *;
  repeat first
    [ rewrite this_minus in * | rewrite this_div in *
    | rewrite this_plus in * | rewrite this_mult in *
    | rewrite this_opp in * | rewrite this_inv in *
    | rewrite this_frac in * | rewrite this_lit in *
    | rewrite this_0 in * | rewrite this_1 in * ];
  repeat match goal with
  | |- context [inject_Z (Z.pos ?p)] =>
      change (inject_Z (Z.pos p)) with (Z.pos p # 1)%Q
  | H : context [inject_Z (Z.pos ?p)] |- _ =>
      change (inject_Z (Z.pos p)) with (Z.pos p # 1)%Q in H
  | |- context [inject_Z 0] => change (inject_Z 0) with 0%Q
  | H : context [inject_Z 0] |- _ => change (inject_Z 0) with 0%Q in H
  end.

Lemma num_0 : num 0 = 0.
Proof. apply Qc_is_canon. reflexivity. Qed.

(** Decides a closed equation on [Qc] by evaluation. *)
Ltac qc_compute := apply Qc_is_canon; vm_compute; reflexivity.

(** ** Interpolation *)

Import Interpolation.





















(** ** Sample logger *)


Lemma floor_lt_iff (x : Q) (n : Z) : (Qfloor x < n)%Z ↔ (x < inject_Z n)%Q.
Proof.
  split; intros H.
  - apply Qlt_le_trans with (inject_Z (Qfloor x + 1)); [apply Qlt_floor|].
    rewrite <- Zle_Qle. lia.
  - rewrite Zlt_Qlt. apply Qle_lt_trans with x; [apply Qfloor_le|done].
Qed.




(** ** Pose lookup *)

Import HandPoses.

Lemma get_neutral : Js.get_property HAND_POSES "neutral" = Js.VPose neutral.
Proof. by vm_compute. Qed.

(** A name of the library yields its pose. *)
Lemma getPose_named (name : string) (p : Pose) :
  HAND_POSES !! name = Some p → getPose (Js.str name) = Js.VPose p.
Proof.
  intros H. unfold getPose, Js.get_property. cbn [Js.ToPropertyKey].
  by rewrite H.
Qed.

(** A name that is neither in the library nor a property of
    [Object.prototype] (the missing argument included) yields [neutral]. *)
Lemma getPose_fallback (poseName : Js.arg) :
  HAND_POSES !! Js.ToPropertyKey poseName = None →
  Js.ToPropertyKey poseName ∉ Js.Object_prototype →
  getPose poseName = Js.VPose neutral.
Proof.
  intros Hnone Hproto. unfold getPose.
  assert (Js.get_property HAND_POSES (Js.ToPropertyKey poseName) = Js.VUndefined)
    as ->.
  { unfold Js.get_property. rewrite Hnone. by rewrite decide_False. }
  cbn [Js.truthy]. apply get_neutral.
Qed.

Lemma getPose_undefined : getPose Js.undefined = Js.VPose neutral.
Proof. by vm_compute. Qed.

(** C7. The lookup goes through the prototype chain: for the name
    ["constructor"], which is not a key of the library, [getPose] returns the
    inherited built-in, neither a pose nor the neutral fallback. *)
Theorem getPose_inherited_name :
  ("constructor" ∉ POSE_NAMES)
  ∧ HAND_POSES !! "constructor" = None
  ∧ getPose (Js.str "constructor") = Js.VBuiltin "constructor"
  ∧ getPose (Js.str "constructor") ≠ Js.VPose neutral.
Proof.
  split; [apply (bool_decide_unpack _); by vm_compute|].
  split; [by vm_compute|].
  split; [by vm_compute|].
  assert (getPose (Js.str "constructor") = Js.VBuiltin "constructor") as ->
    by (by vm_compute).
  discriminate.
Qed.

(** ** Phase state machines: one tick *)

(** The phase check of [advance], with [indexOf] and the lookup in
    [PHASE_ORDER] evaluated. *)
Lemma trial_advance_unfold cfg seqLen d r :
  TrialMode.advance cfg seqLen d r =
  let r1 := TrialMode.set_time r (TrialMode.timeInPhaseRef r + d) in
  if decide (TrialMode.getPhaseDuration cfg (TrialMode.phaseRef r)
             ≤ TrialMode.timeInPhaseRef r + d) then
    match TrialMode.phaseRef r with
    | TrialMode.rest =>
        (TrialMode.set_time (TrialMode.set_phase r1 TrialMode.preparation) 0,
         [TrialMode.PhaseChange])
    | TrialMode.preparation =>
        (TrialMode.set_time (TrialMode.set_phase r1 TrialMode.execution) 0,
         [TrialMode.PhaseChange])
    | TrialMode.execution =>
        (TrialMode.set_time (TrialMode.set_phase r1 TrialMode.returnCue) 0,
         [TrialMode.PhaseChange])
    | TrialMode.returnCue =>
        if decide (seqLen ≤ TrialMode.currentPoseIndexRef r + 1)%nat
        then (TrialMode.completeSession r1, [TrialMode.Complete])
        else (TrialMode.set_time
                (TrialMode.set_phase
                   (TrialMode.set_index r1 (TrialMode.currentPoseIndexRef r + 1))
                   TrialMode.rest) 0,
              [TrialMode.PhaseChange])
    end
  else (r1, []).
Proof.
  unfold TrialMode.advance. cbv zeta.
  destruct (decide (_ ≤ _)) as [Hge|Hlt]; [|reflexivity].
  destruct r as [run pau sta last start p t i].
  cbn [TrialMode.phaseRef TrialMode.set_time TrialMode.currentPoseIndexRef].
  destruct p; reflexivity.
Qed.

Lemma trial_advance_step cfg seqLen d r :
  let r' := (TrialMode.advance cfg seqLen d r).1 in
  let es := (TrialMode.advance cfg seqLen d r).2 in
  (Spec.trial_slot r' = Spec.trial_slot r ∧ es = []
     ∧ TrialMode.timeInPhaseRef r' = TrialMode.timeInPhaseRef r + d)
  ∨ (Spec.trial_slot r' = Spec.trial_slot r ∧ es = [TrialMode.Complete])
  ∨ (Spec.trial_slot r' = Spec.trial_next (Spec.trial_slot r)
     ∧ es = [TrialMode.PhaseChange] ∧ TrialMode.timeInPhaseRef r' = 0).
Proof.
  rewrite trial_advance_unfold. cbv zeta.
  unfold Spec.trial_slot, Spec.trial_next.
  destruct r as [run pau sta last start p t i].
  cbn [TrialMode.phaseRef TrialMode.currentPoseIndexRef TrialMode.timeInPhaseRef].
  case_decide; [|by left].
  destruct p; try (by right; right).
  case_decide; [by right; left | right; right].
  repeat split. cbn. f_equal. lia.
Qed.

Lemma continuous_advance_step cfg seqLen ts d r :
  let r' := (ContinuousMode.advance cfg seqLen ts d r).1 in
  let es := (ContinuousMode.advance cfg seqLen ts d r).2 in
  (Spec.continuous_slot r' = Spec.continuous_slot r ∧ es = []
     ∧ ContinuousMode.timeInPhaseRef r' = ContinuousMode.timeInPhaseRef r + d)
  ∨ (Spec.continuous_slot r' = Spec.continuous_slot r
     ∧ es = [ContinuousMode.Complete])
  ∨ (Spec.continuous_slot r' = Spec.continuous_next (Spec.continuous_slot r)
     ∧ es = [ContinuousMode.PhaseChange] ∧ ContinuousMode.timeInPhaseRef r' = 0).
Proof.
  unfold ContinuousMode.advance. cbv zeta.
  unfold Spec.continuous_slot, Spec.continuous_next.
  destruct r as [run pau sta last start p t i log].
  cbn [ContinuousMode.phaseRef ContinuousMode.currentPoseIndexRef
       ContinuousMode.timeInPhaseRef ContinuousMode.set_time].
  destruct (Logger.logDue _ _ _);
    (case_decide; [|by left]);
    destruct p; cbn; try (by right; right);
    (case_decide; [by right; left | right; right]);
    cbn; (split; [f_equal; lia | by split]).
Qed.

(** C8. In the trial-based and in the continuous-transition machine, one
    tick with any delta time, and one frame callback with any timestamp,
    leaves the machine at its place in the phase ordering or moves it to the
    next place, never further; and whenever the place changes, the resulting
    [timeInPhase] is exactly 0. *)
Theorem at_most_one_transition_per_tick :
  (∀ cfg seqLen deltaTime r,
     let r' := (TrialMode.advance cfg seqLen deltaTime r).1 in
     (Spec.trial_slot r' = Spec.trial_slot r
      ∨ Spec.trial_slot r' = Spec.trial_next (Spec.trial_slot r))
     ∧ (Spec.trial_slot r' ≠ Spec.trial_slot r → TrialMode.timeInPhaseRef r' = 0))
  ∧ (∀ cfg seqLen timestamp r,
     let r' := (TrialMode.animate cfg seqLen timestamp r).1 in
     (Spec.trial_slot r' = Spec.trial_slot r
      ∨ Spec.trial_slot r' = Spec.trial_next (Spec.trial_slot r))
     ∧ (Spec.trial_slot r' ≠ Spec.trial_slot r → TrialMode.timeInPhaseRef r' = 0))
  ∧ (∀ cfg seqLen timestamp deltaTime r,
     let r' := (ContinuousMode.advance cfg seqLen timestamp deltaTime r).1 in
     (Spec.continuous_slot r' = Spec.continuous_slot r
      ∨ Spec.continuous_slot r' = Spec.continuous_next (Spec.continuous_slot r))
     ∧ (Spec.continuous_slot r' ≠ Spec.continuous_slot r
        → ContinuousMode.timeInPhaseRef r' = 0))
  ∧ (∀ cfg seqLen timestamp r,
     let r' := (ContinuousMode.animate cfg seqLen timestamp r).1 in
     (Spec.continuous_slot r' = Spec.continuous_slot r
      ∨ Spec.continuous_slot r' = Spec.continuous_next (Spec.continuous_slot r))
     ∧ (Spec.continuous_slot r' ≠ Spec.continuous_slot r
        → ContinuousMode.timeInPhaseRef r' = 0)).
Proof.
  assert (∀ cfg seqLen deltaTime r,
     let r' := (TrialMode.advance cfg seqLen deltaTime r).1 in
     (Spec.trial_slot r' = Spec.trial_slot r
      ∨ Spec.trial_slot r' = Spec.trial_next (Spec.trial_slot r))
     ∧ (Spec.trial_slot r' ≠ Spec.trial_slot r → TrialMode.timeInPhaseRef r' = 0))
    as HT.
  { intros cfg seqLen d r.
    destruct (trial_advance_step cfg seqLen d r)
      as [(Hs & _ & _)|[(Hs & _)|(Hs & _ & Ht)]]; cbv zeta;
      split; auto; intros Hne; by destruct Hne. }
  assert (∀ cfg seqLen timestamp deltaTime r,
     let r' := (ContinuousMode.advance cfg seqLen timestamp deltaTime r).1 in
     (Spec.continuous_slot r' = Spec.continuous_slot r
      ∨ Spec.continuous_slot r' = Spec.continuous_next (Spec.continuous_slot r))
     ∧ (Spec.continuous_slot r' ≠ Spec.continuous_slot r
        → ContinuousMode.timeInPhaseRef r' = 0))
    as HC.
  { intros cfg seqLen ts d r.
    destruct (continuous_advance_step cfg seqLen ts d r)
      as [(Hs & _ & _)|[(Hs & _)|(Hs & _ & Ht)]]; cbv zeta;
      split; auto; intros Hne; by destruct Hne. }
  split; [exact HT|]. split; [|split; [exact HC|]].
  - intros cfg seqLen ts r. unfold TrialMode.animate.
    destruct (Js.falsy (TrialMode.lastTimestampRef r));
    match goal with |- context [TrialMode.advance _ _ ?d ?r1] =>
      specialize (HT cfg seqLen d r1);
      change (Spec.trial_slot r1) with (Spec.trial_slot r) in HT end;
    exact HT.
  - intros cfg seqLen ts r. unfold ContinuousMode.animate.
    destruct (Js.falsy (ContinuousMode.lastTimestampRef r));
    match goal with |- context [ContinuousMode.advance _ _ _ ?d ?r1] =>
      specialize (HC cfg seqLen ts d r1);
      change (Spec.continuous_slot r1) with (Spec.continuous_slot r) in HC end;
    exact HC.
Qed.

(** ** Phase state machines: whole phases and sessions *)

Lemma Qc_eq_this (x y : Qc) : x = y → (this x == this y)%Q.
Proof. by intros ->. Qed.

Ltac qc_hyps :=
  repeat match goal with
  | H : @eq Qc _ _ |- _ => apply Qc_eq_this in H
  | H : ¬ (_ ≤ _)%Qc |- _ => apply Qcnot_le_lt in H
  | H : ¬ (_ < _)%Qc |- _ => apply Qcnot_lt_le in H
  end.

Ltac qc_lra := qc_hyps; to_Q; lra.

Lemma total_cons d ds : Spec.total (d :: ds) = d + Spec.total ds.
Proof. reflexivity. Qed.

Lemma total_nonneg ds : Spec.nonneg ds → 0 ≤ Spec.total ds.
Proof.
  induction 1 as [|d ds Hd _ IH]; [done|]. rewrite total_cons. qc_lra.
Qed.

Lemma total_app ds1 ds2 :
  Spec.total (ds1 ++ ds2) = Spec.total ds1 + Spec.total ds2.
Proof.
  induction ds1 as [|d ds1 IH];
    [change (Spec.total ds2 = 0 + Spec.total ds2); ring|].
  rewrite <- app_comm_cons, !total_cons, IH. ring.
Qed.

Lemma trial_set_time_id r :
  TrialMode.set_time r (TrialMode.timeInPhaseRef r) = r.
Proof. by destruct r. Qed.

(** Ticks of total zero at the start of a phase, or after the session
    stopped, change nothing. *)
Lemma trial_feed_idle cfg seqLen ds r :
  Spec.trial_positive cfg → Spec.nonneg ds → Spec.total ds = 0 →
  (TrialMode.isRunning r = true → TrialMode.timeInPhaseRef r = 0) →
  TrialMode.feed cfg seqLen ds r = (r, []).
Proof.
  intros Hpos Hnn. revert r. induction Hnn as [|d ds Hd Hnn IH]; intros r Htot Ht.
  { reflexivity. }
  rewrite total_cons in Htot. pose proof (total_nonneg _ Hnn) as Hs.
  assert (d = 0) as -> by qc_lra.
  assert (Spec.total ds = 0) as Htot' by qc_lra.
  cbn [TrialMode.feed].
  destruct (TrialMode.isRunning r && negb (TrialMode.isPaused r)) eqn:Hrun;
    [|reflexivity].
  apply andb_prop in Hrun as [Hr _]. specialize (Ht Hr).
  rewrite trial_advance_unfold. cbv zeta.
  rewrite Qcplus_0_r, trial_set_time_id, decide_False.
  2:{ specialize (Hpos (TrialMode.phaseRef r)). rewrite Ht. qc_lra. }
  rewrite IH by done. reflexivity.
Qed.

Lemma trial_advance_reaching cfg seqLen d r :
  Spec.trial_running r →
  TrialMode.getPhaseDuration cfg (TrialMode.phaseRef r)
    ≤ TrialMode.timeInPhaseRef r + d →
  Spec.trial_one_transition seqLen r (TrialMode.advance cfg seqLen d r)
  ∧ (TrialMode.isRunning (TrialMode.advance cfg seqLen d r).1 = true →
     TrialMode.timeInPhaseRef (TrialMode.advance cfg seqLen d r).1 = 0).
Proof.
  intros [Hr Hp] Hge. rewrite trial_advance_unfold. cbv zeta.
  rewrite decide_True by done.
  unfold Spec.trial_one_transition, Spec.trial_last, Spec.trial_running, Spec.trial_slot,
    Spec.trial_next.
  destruct r as [run pau sta last start p t i]. cbn in Hr, Hp. subst run pau.
  cbn [TrialMode.phaseRef TrialMode.currentPoseIndexRef].
  destruct p; try case_decide; cbn;
    (split; [split; [intros [? ?]; first [discriminate | lia | done]
                    |intros Hn; first [by destruct Hn | repeat split; f_equal; lia]]
            | done]).
Qed.

Lemma trial_feed_phase cfg seqLen ds r :
  Spec.trial_positive cfg → Spec.trial_running r →
  0 ≤ TrialMode.timeInPhaseRef r →
  TrialMode.timeInPhaseRef r < TrialMode.getPhaseDuration cfg (TrialMode.phaseRef r) →
  Spec.nonneg ds →
  TrialMode.timeInPhaseRef r + Spec.total ds
    = TrialMode.getPhaseDuration cfg (TrialMode.phaseRef r) →
  Spec.trial_one_transition seqLen r (TrialMode.feed cfg seqLen ds r).
Proof.
  intros Hpos Hrun H0 Hlt Hnn. revert r Hrun H0 Hlt.
  induction Hnn as [|d ds Hd Hnn IH]; intros r Hrun H0 Hlt Htot.
  { change (Spec.total []) with 0 in Htot. exfalso. qc_lra. }
  rewrite total_cons in Htot. pose proof (total_nonneg _ Hnn) as Hs.
  cbn [TrialMode.feed]. destruct Hrun as [Hr Hp]. rewrite Hr, Hp. cbn [andb negb].
  destruct (decide (TrialMode.getPhaseDuration cfg (TrialMode.phaseRef r)
                    ≤ TrialMode.timeInPhaseRef r + d)) as [Hge|Hnge].
  - destruct (trial_advance_reaching cfg seqLen d r (conj Hr Hp) Hge) as [Hone Hzero].
    destruct (TrialMode.advance cfg seqLen d r) as [r1 e1] eqn:Hadv.
    rewrite (trial_feed_idle cfg seqLen ds r1); [|done|done| |done].
    + by rewrite app_nil_r.
    + qc_lra.
  - rewrite trial_advance_unfold. cbv zeta. rewrite decide_False by done.
    set (r1 := TrialMode.set_time r (TrialMode.timeInPhaseRef r + d)).
    assert (TrialMode.phaseRef r1 = TrialMode.phaseRef r) as Hph by (by destruct r).
    assert (TrialMode.timeInPhaseRef r1 = TrialMode.timeInPhaseRef r + d) as Ht1
      by (by destruct r).
    specialize (IH r1).
    destruct (TrialMode.feed cfg seqLen ds r1) as [r2 e2] eqn:Hfeed.
    cbn [app].
    assert (Spec.trial_one_transition seqLen r1 (r2, e2)) as Hone.
    { apply IH.
      - by destruct r.
      - rewrite Ht1. qc_lra.
      - rewrite Ht1, Hph. qc_lra.
      - rewrite Ht1, Hph. qc_lra. }
    unfold Spec.trial_one_transition, Spec.trial_last, Spec.trial_slot in *.
    by destruct r.
Qed.

Lemma trial_feed_stopped cfg seqLen ds r :
  TrialMode.isRunning r = false → TrialMode.feed cfg seqLen ds r = (r, []).
Proof. intros H. destruct ds; [done|]. cbn [TrialMode.feed]. by rewrite H. Qed.

Lemma trial_feed_app cfg seqLen ds1 ds2 r :
  TrialMode.feed cfg seqLen (ds1 ++ ds2) r =
  ((TrialMode.feed cfg seqLen ds2 (TrialMode.feed cfg seqLen ds1 r).1).1,
   (TrialMode.feed cfg seqLen ds1 r).2
   ++ (TrialMode.feed cfg seqLen ds2 (TrialMode.feed cfg seqLen ds1 r).1).2).
Proof.
  revert r. induction ds1 as [|d ds1 IH]; intros r.
  { cbn. by destruct (TrialMode.feed cfg seqLen ds2 r). }
  rewrite <- app_comm_cons. cbn [TrialMode.feed].
  destruct (TrialMode.isRunning r && negb (TrialMode.isPaused r)) eqn:Hrun.
  - destruct (TrialMode.advance cfg seqLen d r) as [r1 e1].
    rewrite IH.
    destruct (TrialMode.feed cfg seqLen ds1 r1) as [r2 e2]. cbn [fst snd].
    destruct (TrialMode.feed cfg seqLen ds2 r2) as [r3 e3]. cbn [fst snd].
    by rewrite app_assoc.
  - cbn [fst snd]. destruct ds2 as [|d2 ds2]; [done|].
    cbn [TrialMode.feed]. by rewrite Hrun.
Qed.

Lemma trial_feed_fills cfg seqLen ds r :
  Spec.trial_positive cfg → Spec.trial_running r →
  TrialMode.timeInPhaseRef r = 0 →
  Spec.fills (TrialMode.getPhaseDuration cfg (TrialMode.phaseRef r)) ds →
  Spec.trial_one_transition seqLen r (TrialMode.feed cfg seqLen ds r).
Proof.
  intros Hpos Hrun Ht [Hnn Htot]. apply trial_feed_phase; try done.
  - rewrite Ht. done.
  - rewrite Ht. apply Hpos.
  - rewrite Ht, Htot. ring.
Qed.

(** One whole trial, fed phase by phase. *)
Lemma trial_feed_trial cfg seqLen t r i :
  Spec.trial_positive cfg → Spec.trial_aligned cfg t → Spec.trial_running r →
  Spec.trial_slot r = (TrialMode.rest, i) → TrialMode.timeInPhaseRef r = 0 →
  let out := TrialMode.feed cfg seqLen (Spec.trial_ticks t) r in
  ((S i < seqLen)%nat →
     out.2 = replicate 4 TrialMode.PhaseChange
     ∧ Spec.trial_running out.1 ∧ Spec.trial_slot out.1 = (TrialMode.rest, S i)
     ∧ TrialMode.timeInPhaseRef out.1 = 0)
  ∧ ((seqLen ≤ S i)%nat →
     out.2 = replicate 3 TrialMode.PhaseChange ++ [TrialMode.Complete]
     ∧ TrialMode.isRunning out.1 = false).
Proof.
  intros Hpos (Ha & Hb & Hc & Hd) Hrun Hslot Ht.
  destruct t as [[[a b] c] d]. unfold Spec.trial_ticks. cbn [fst snd] in *.
  unfold Spec.trial_slot in Hslot. injection Hslot as Hph Hi.
  (* rest *)
  assert (Spec.fills (TrialMode.getPhaseDuration cfg (TrialMode.phaseRef r)) a)
    as Fa by (by rewrite Hph).
  destruct (trial_feed_fills cfg seqLen a r Hpos Hrun Ht Fa) as [_ H1].
  destruct H1 as (E1 & S1 & T1 & R1); [unfold Spec.trial_last; intros [? _]; congruence|].
  rewrite trial_feed_app.
  destruct (TrialMode.feed cfg seqLen a r) as [r1 e1]. cbn [fst snd] in *.
  unfold Spec.trial_slot, Spec.trial_next in S1. rewrite Hph, Hi in S1.
  cbn in S1. injection S1 as P1 I1.
  (* preparation *)
  assert (Spec.fills (TrialMode.getPhaseDuration cfg (TrialMode.phaseRef r1)) b)
    as Fb by (by rewrite P1).
  destruct (trial_feed_fills cfg seqLen b r1 Hpos R1 T1 Fb) as [_ H2].
  destruct H2 as (E2 & S2 & T2 & R2); [unfold Spec.trial_last; intros [? _]; congruence|].
  rewrite trial_feed_app.
  destruct (TrialMode.feed cfg seqLen b r1) as [r2 e2]. cbn [fst snd] in *.
  unfold Spec.trial_slot, Spec.trial_next in S2. rewrite P1, I1 in S2.
  cbn in S2. injection S2 as P2 I2.
  (* execution *)
  assert (Spec.fills (TrialMode.getPhaseDuration cfg (TrialMode.phaseRef r2)) c)
    as Fc by (by rewrite P2).
  destruct (trial_feed_fills cfg seqLen c r2 Hpos R2 T2 Fc) as [_ H3].
  destruct H3 as (E3 & S3 & T3 & R3); [unfold Spec.trial_last; intros [? _]; congruence|].
  rewrite trial_feed_app.
  destruct (TrialMode.feed cfg seqLen c r2) as [r3 e3]. cbn [fst snd] in *.
  unfold Spec.trial_slot, Spec.trial_next in S3. rewrite P2, I2 in S3.
  cbn in S3. injection S3 as P3 I3.
  (* returnCue *)
  assert (Spec.fills (TrialMode.getPhaseDuration cfg (TrialMode.phaseRef r3)) d)
    as Fd by (by rewrite P3).
  destruct (trial_feed_fills cfg seqLen d r3 Hpos R3 T3 Fd) as [H4l H4].
  destruct (TrialMode.feed cfg seqLen d r3) as [r4 e4]. cbn [fst snd] in *.
  subst e1 e2 e3. split.
  - intros Hlt. destruct H4 as (E4 & S4 & T4 & R4).
    { unfold Spec.trial_last. intros [_ ?]. lia. }
    subst e4. split; [done|]. split; [done|]. split; [|done].
    rewrite S4. unfold Spec.trial_slot, Spec.trial_next. rewrite P3, I3. done.
  - intros Hge. destruct H4l as (E4 & R4).
    { unfold Spec.trial_last. split; [done|]. lia. }
    subst e4. done.
Qed.

(** A whole session fed trial by trial, from the rest phase of trial [i]. *)
Lemma trial_feed_session cfg seqLen trials r i :
  Spec.trial_positive cfg → Forall (Spec.trial_aligned cfg) trials →
  Spec.trial_running r → Spec.trial_slot r = (TrialMode.rest, i) →
  TrialMode.timeInPhaseRef r = 0 →
  (i + length trials = seqLen)%nat → (0 < length trials)%nat →
  let out := TrialMode.feed cfg seqLen (concat (Spec.trial_ticks <$> trials)) r in
  TrialMode.isRunning out.1 = false
  ∧ out.2 = replicate (4 * length trials - 1) TrialMode.PhaseChange
            ++ [TrialMode.Complete].
Proof.
  intros Hpos Hall. revert r i.
  induction Hall as [|t trials Ht Hall IH]; intros r i Hrun Hslot Htime Hlen Hne.
  { cbn in Hne. lia. }
  cbn [fmap list_fmap concat]. rewrite trial_feed_app.
  destruct (trial_feed_trial cfg seqLen t r i Hpos Ht Hrun Hslot Htime)
    as [Hmore Hlast].
  destruct (TrialMode.feed cfg seqLen (Spec.trial_ticks t) r) as [r1 e1].
  cbn [fst snd] in *. cbn [length] in *.
  destruct trials as [|t' trials].
  - destruct Hlast as [-> Hstop]; [cbn in Hlen; lia|].
    rewrite trial_feed_stopped by done. cbn [fst snd concat fmap list_fmap].
    split; [done|]. by rewrite app_nil_r.
  - destruct Hmore as (-> & Hrun1 & Hslot1 & Htime1); [cbn in Hlen; lia|].
    destruct (IH r1 (S i) Hrun1 Hslot1 Htime1) as [Hstop Hev].
    { cbn [length] in *. lia. }
    { cbn [length]. lia. }
    split; [done|]. cbv zeta in Hev. rewrite Hev.
    rewrite app_assoc, <- replicate_add. do 2 f_equal. cbn [length]. lia.
Qed.

Lemma logDue_idle L : Logger.logDue L 0 0 = false.
Proof.
  unfold Logger.logDue, Num.rem. apply bool_decide_eq_false.
  rewrite (Qcmult_comm L). unfold Qcdiv. rewrite Qcmult_0_l.
  assert (num (Num.trunc 0) = 0) as -> by qc_compute. rewrite Qcmult_0_l.
  by vm_compute.
Qed.

Lemma continuous_feed_idle cfg seqLen ds r :
  Spec.continuous_positive cfg → Spec.nonneg ds → Spec.total ds = 0 →
  (ContinuousMode.isRunning r = true → ContinuousMode.timeInPhaseRef r = 0) →
  (ContinuousMode.feed cfg seqLen ds r).2 = []
  ∧ Spec.continuous_core (ContinuousMode.feed cfg seqLen ds r).1
    = Spec.continuous_core r.
Proof.
  intros [Hpr Hpt] Hnn. revert r.
  induction Hnn as [|d ds Hd Hnn IH]; intros r Htot Ht.
  { done. }
  rewrite total_cons in Htot. pose proof (total_nonneg _ Hnn) as Hs.
  assert (d = 0) as -> by qc_lra.
  assert (Spec.total ds = 0) as Htot' by qc_lra.
  cbn [ContinuousMode.feed].
  destruct (ContinuousMode.isRunning r && negb (ContinuousMode.isPaused r)) eqn:Hrun;
    [|done].
  apply andb_prop in Hrun as [Hr _]. specialize (Ht Hr).
  unfold ContinuousMode.advance. cbv zeta.
  destruct r as [run pau sta last start p t i log]. cbn in Ht, Hr. subst t run.
  cbn [ContinuousMode.phaseRef ContinuousMode.timeInPhaseRef
       ContinuousMode.set_clock ContinuousMode.set_time
       ContinuousMode.currentPoseIndexRef].
  rewrite Qcplus_0_r, logDue_idle.
  rewrite decide_False by (destruct p; qc_lra).
  match goal with |- context [ContinuousMode.feed _ _ ds ?r1] =>
    specialize (IH r1 Htot' (λ _, eq_refl));
    destruct (ContinuousMode.feed cfg seqLen ds r1) as [r2 e2] end.
  cbn [fst snd] in *. destruct IH as [-> ->]. done.
Qed.

Lemma continuous_advance_reaching cfg seqLen ts d r :
  Spec.continuous_running r →
  Spec.continuous_duration cfg (ContinuousMode.phaseRef r)
    ≤ ContinuousMode.timeInPhaseRef r + d →
  Spec.continuous_one_transition seqLen r (ContinuousMode.advance cfg seqLen ts d r)
  ∧ (ContinuousMode.isRunning (ContinuousMode.advance cfg seqLen ts d r).1 = true →
     ContinuousMode.timeInPhaseRef (ContinuousMode.advance cfg seqLen ts d r).1 = 0).
Proof.
  intros [Hr Hp] Hge. unfold ContinuousMode.advance. cbv zeta.
  unfold Spec.continuous_one_transition, Spec.continuous_last,
    Spec.continuous_running, Spec.continuous_slot, Spec.continuous_next.
  destruct r as [run pau sta last start p t i log]. cbn in Hr, Hp, Hge.
  subst run pau.
  cbn [ContinuousMode.phaseRef ContinuousMode.currentPoseIndexRef
       ContinuousMode.timeInPhaseRef ContinuousMode.set_time].
  destruct (Logger.logDue _ _ _);
    (destruct p; cbn in Hge; rewrite decide_True by done;
     try case_decide; cbn;
     (split; [split; [intros [? ?]; first [discriminate | lia | done]
                     |intros Hn; first [by destruct Hn | repeat split; f_equal; lia]]
             | done])).
Qed.

Lemma continuous_advance_waiting cfg seqLen ts d r :
  ¬ (Spec.continuous_duration cfg (ContinuousMode.phaseRef r)
       ≤ ContinuousMode.timeInPhaseRef r + d) →
  (ContinuousMode.advance cfg seqLen ts d r).2 = []
  ∧ Spec.continuous_core (ContinuousMode.advance cfg seqLen ts d r).1
    = (ContinuousMode.isRunning r, ContinuousMode.isPaused r,
       ContinuousMode.phaseRef r, ContinuousMode.timeInPhaseRef r + d,
       ContinuousMode.currentPoseIndexRef r).
Proof.
  intros Hlt. unfold ContinuousMode.advance. cbv zeta.
  destruct r as [run pau sta last start p t i log]. cbn in Hlt.
  cbn [ContinuousMode.phaseRef ContinuousMode.currentPoseIndexRef
       ContinuousMode.timeInPhaseRef ContinuousMode.set_time].
  destruct (Logger.logDue _ _ _);
    (destruct p; cbn in Hlt; rewrite decide_False by done; done).
Qed.

Lemma continuous_feed_phase cfg seqLen ds r :
  Spec.continuous_positive cfg → Spec.continuous_running r →
  0 ≤ ContinuousMode.timeInPhaseRef r →
  ContinuousMode.timeInPhaseRef r
    < Spec.continuous_duration cfg (ContinuousMode.phaseRef r) →
  Spec.nonneg ds →
  ContinuousMode.timeInPhaseRef r + Spec.total ds
    = Spec.continuous_duration cfg (ContinuousMode.phaseRef r) →
  Spec.continuous_one_transition seqLen r (ContinuousMode.feed cfg seqLen ds r).
Proof.
  intros Hpos Hrun H0 Hlt Hnn. revert r Hrun H0 Hlt.
  induction Hnn as [|d ds Hd Hnn IH]; intros r Hrun H0 Hlt Htot.
  { change (Spec.total []) with 0 in Htot. exfalso. qc_lra. }
  rewrite total_cons in Htot. pose proof (total_nonneg _ Hnn) as Hs.
  cbn [ContinuousMode.feed]. destruct Hrun as [Hr Hp]. rewrite Hr, Hp.
  cbn [andb negb].
  set (ts := default 0 (ContinuousMode.lastTimestampRef r) + d).
  set (rc := ContinuousMode.set_clock r (Some ts) (ContinuousMode.sessionStartTimeRef r)).
  assert (Spec.continuous_core rc = Spec.continuous_core r) as Hcore by (by destruct r).
  assert (Spec.continuous_running rc) as Hrunc by (by destruct r).
  assert (ContinuousMode.phaseRef rc = ContinuousMode.phaseRef r) as Hphc
    by (by destruct r).
  assert (ContinuousMode.timeInPhaseRef rc = ContinuousMode.timeInPhaseRef r) as Htc
    by (by destruct r).
  assert (∀ out, Spec.continuous_one_transition seqLen rc out →
                 Spec.continuous_one_transition seqLen r out) as Hback.
  { unfold Spec.continuous_one_transition, Spec.continuous_last,
      Spec.continuous_slot. by destruct r. }
  destruct (decide (Spec.continuous_duration cfg (ContinuousMode.phaseRef r)
                    ≤ ContinuousMode.timeInPhaseRef r + d)) as [Hge|Hnge].
  - destruct (continuous_advance_reaching cfg seqLen ts d rc Hrunc) as [Hone Hzero].
    { by rewrite Hphc, Htc. }
    destruct (ContinuousMode.advance cfg seqLen ts d rc) as [r1 e1] eqn:Hadv.
    destruct (continuous_feed_idle cfg seqLen ds r1) as [He Hc]; [done|done| |done|].
    + qc_lra.
    + destruct (ContinuousMode.feed cfg seqLen ds r1) as [r2 e2].
      cbn [fst snd] in *. subst e2. rewrite app_nil_r. apply Hback.
      unfold Spec.continuous_one_transition, Spec.continuous_running,
        Spec.continuous_slot, Spec.continuous_core in *.
      cbn [fst snd] in *. injection Hc as -> -> -> -> ->. done.
  - destruct (continuous_advance_waiting cfg seqLen ts d rc) as [He Hc].
    { by rewrite Hphc, Htc. }
    destruct (ContinuousMode.advance cfg seqLen ts d rc) as [r1 e1] eqn:Hadv.
    cbn [fst snd] in *. subst e1.
    unfold Spec.continuous_core in Hc.
    injection Hc as D1 D2 D3 D4 D5.
    specialize (IH r1).
    destruct (ContinuousMode.feed cfg seqLen ds r1) as [r2 e2] eqn:Hfeed.
    cbn [app].
    assert (Spec.continuous_one_transition seqLen r1 (r2, e2)) as Hone.
    { apply IH.
      - split; congruence.
      - rewrite D4. qc_lra.
      - rewrite D4, D3. qc_lra.
      - rewrite D4, D3. qc_lra. }
    unfold Spec.continuous_one_transition, Spec.continuous_last,
      Spec.continuous_slot in *.
    by rewrite D3, D5 in Hone.
Qed.

Lemma continuous_feed_stopped cfg seqLen ds r :
  ContinuousMode.isRunning r = false →
  ContinuousMode.feed cfg seqLen ds r = (r, []).
Proof. intros H. destruct ds; [done|]. cbn [ContinuousMode.feed]. by rewrite H. Qed.

Lemma continuous_feed_app cfg seqLen ds1 ds2 r :
  ContinuousMode.feed cfg seqLen (ds1 ++ ds2) r =
  ((ContinuousMode.feed cfg seqLen ds2 (ContinuousMode.feed cfg seqLen ds1 r).1).1,
   (ContinuousMode.feed cfg seqLen ds1 r).2
   ++ (ContinuousMode.feed cfg seqLen ds2 (ContinuousMode.feed cfg seqLen ds1 r).1).2).
Proof.
  revert r. induction ds1 as [|d ds1 IH]; intros r.
  { cbn. by destruct (ContinuousMode.feed cfg seqLen ds2 r). }
  rewrite <- app_comm_cons. cbn [ContinuousMode.feed].
  destruct (ContinuousMode.isRunning r && negb (ContinuousMode.isPaused r)) eqn:Hrun.
  - destruct (ContinuousMode.advance _ _ _ _ _) as [r1 e1].
    rewrite IH.
    destruct (ContinuousMode.feed cfg seqLen ds1 r1) as [r2 e2]. cbn [fst snd].
    destruct (ContinuousMode.feed cfg seqLen ds2 r2) as [r3 e3]. cbn [fst snd].
    by rewrite app_assoc.
  - cbn [fst snd]. destruct ds2 as [|d2 ds2]; [done|].
    cbn [ContinuousMode.feed]. by rewrite Hrun.
Qed.

Lemma continuous_feed_fills cfg seqLen ds r :
  Spec.continuous_positive cfg → Spec.continuous_running r →
  ContinuousMode.timeInPhaseRef r = 0 →
  Spec.fills (Spec.continuous_duration cfg (ContinuousMode.phaseRef r)) ds →
  Spec.continuous_one_transition seqLen r (ContinuousMode.feed cfg seqLen ds r).
Proof.
  intros Hpos Hrun Ht [Hnn Htot]. apply continuous_feed_phase; try done.
  - rewrite Ht. done.
  - rewrite Ht. destruct Hpos. by destruct (ContinuousMode.phaseRef r).
  - rewrite Ht, Htot. ring.
Qed.

(** A whole session of the continuous machine: the rest of target [i], then
    a transition and a rest for every further target. *)
Lemma continuous_feed_session cfg seqLen pairs first r i :
  Spec.continuous_positive cfg →
  Forall (Spec.continuous_aligned cfg) pairs →
  Spec.fills (ContinuousMode.restDuration cfg) first →
  Spec.continuous_running r →
  Spec.continuous_slot r = (ContinuousMode.rest, i) →
  ContinuousMode.timeInPhaseRef r = 0 →
  (i + 1 + length pairs = seqLen)%nat →
  let out := ContinuousMode.feed cfg seqLen
               (first ++ concat (Spec.continuous_ticks <$> pairs)) r in
  ContinuousMode.isRunning out.1 = false
  ∧ out.2 = replicate (2 * length pairs) ContinuousMode.PhaseChange
            ++ [ContinuousMode.Complete].
Proof.
  intros Hpos Hall. revert first r i.
  induction Hall as [|[tr rs] pairs [Htr Hrs] Hall IH];
    intros first r i Hfirst Hrun Hslot Htime Hlen.
  - cbn [fmap list_fmap concat length] in *. rewrite app_nil_r.
    unfold Spec.continuous_slot in Hslot. injection Hslot as Hph Hi.
    assert (Spec.fills (Spec.continuous_duration cfg (ContinuousMode.phaseRef r)) first)
      as Ff by (by rewrite Hph).
    destruct (continuous_feed_fills cfg seqLen first r Hpos Hrun Htime Ff) as [H1 _].
    destruct H1 as [E1 R1]; [split; [done|lia]|].
    cbv zeta. rewrite E1. done.
  - cbv zeta. rewrite fmap_cons. cbn [concat length fst snd] in *.
    change (Spec.continuous_ticks (tr, rs)) with (tr ++ rs).
    rewrite <- !app_assoc, continuous_feed_app.
    unfold Spec.continuous_slot in Hslot. injection Hslot as Hph Hi.
    assert (Spec.fills (Spec.continuous_duration cfg (ContinuousMode.phaseRef r)) first)
      as Ff by (by rewrite Hph).
    destruct (continuous_feed_fills cfg seqLen first r Hpos Hrun Htime Ff) as [_ H1].
    destruct H1 as (E1 & S1 & T1 & R1); [intros [_ ?]; lia|].
    destruct (ContinuousMode.feed cfg seqLen first r) as [r1 e1].
    cbn [fst snd] in *. subst e1.
    unfold Spec.continuous_slot, Spec.continuous_next in S1. rewrite Hph, Hi in S1.
    cbn in S1. injection S1 as P1 I1.
    rewrite continuous_feed_app.
    assert (Spec.fills (Spec.continuous_duration cfg (ContinuousMode.phaseRef r1)) tr)
      as Ftr by (by rewrite P1).
    destruct (continuous_feed_fills cfg seqLen tr r1 Hpos R1 T1 Ftr) as [_ H2].
    destruct H2 as (E2 & S2 & T2 & R2); [intros [? _]; congruence|].
    destruct (ContinuousMode.feed cfg seqLen tr r1) as [r2 e2].
    cbn [fst snd] in *. subst e2.
    unfold Spec.continuous_slot, Spec.continuous_next in S2. rewrite P1, I1 in S2.
    cbn in S2.
    destruct (IH rs r2 (S i) Hrs R2 S2 T2) as [Hstop Hev]; [lia|].
    cbv zeta in Hev. split; [done|]. rewrite Hev.
    replace (2 * S (length pairs))%nat with (2 + 2 * length pairs)%nat by lia.
    done.
Qed.

Lemma num_succ (n : nat) : num (Z.of_nat (S n)) = 1 + num (Z.of_nat n).
Proof.
  to_Q. rewrite Nat2Z.inj_succ. unfold Z.succ. rewrite inject_Z_plus.
  change (inject_Z 1) with 1%Q. lra.
Qed.

Lemma trial_session_total cfg trials :
  Forall (Spec.trial_aligned cfg) trials →
  Spec.total (concat (Spec.trial_ticks <$> trials))
  = Spec.trial_session_duration cfg (length trials).
Proof.
  unfold Spec.trial_session_duration.
  induction 1 as [|[[[a b] c] d] trials (Ha & Hb & Hc & Hd) _ IH].
  { cbn [length fmap list_fmap concat]. change (Spec.total []) with 0.
    change (Z.of_nat 0) with 0%Z. rewrite num_0. ring. }
  rewrite fmap_cons. cbn [concat length]. rewrite total_app, IH, num_succ.
  unfold Spec.trial_ticks. cbn [fst snd] in *. rewrite !total_app.
  destruct Ha as [_ ->], Hb as [_ ->], Hc as [_ ->], Hd as [_ ->]. ring.
Qed.

(** C2, as the code has it.  With positive durations, in both machines:
    ticks that add up to exactly the duration of the current phase, fed from
    the start of that phase, cause exactly one transition event, a phase
    change that resets [timeInPhase] to 0 or, at the last phase of the
    session, its completion; and a session fed phase by phase, each phase
    with ticks that add up to its duration (for the trial-based machine the
    ticks then add up to the nominal session duration), ends in the complete
    state with exactly one [Complete] event, after all the phase changes, and
    ticks fed after it are not processed. *)
Theorem phase_transition_counting :
  (∀ cfg seqLen, Spec.trial_positive cfg →
     (∀ r ds,
        Spec.trial_running r → TrialMode.timeInPhaseRef r = 0 →
        Spec.fills (TrialMode.getPhaseDuration cfg (TrialMode.phaseRef r)) ds →
        Spec.trial_one_transition seqLen r (TrialMode.feed cfg seqLen ds r))
     ∧ (∀ r trials more,
        Forall (Spec.trial_aligned cfg) trials →
        length trials = seqLen → (0 < seqLen)%nat →
        Spec.trial_running r → Spec.trial_slot r = (TrialMode.rest, 0%nat) →
        TrialMode.timeInPhaseRef r = 0 →
        let ticks := concat (Spec.trial_ticks <$> trials) in
        let out := TrialMode.feed cfg seqLen ticks r in
        Spec.total ticks = Spec.trial_session_duration cfg seqLen
        ∧ TrialMode.isRunning out.1 = false
        ∧ out.2 = replicate (4 * seqLen - 1) TrialMode.PhaseChange
                  ++ [TrialMode.Complete]
        ∧ TrialMode.feed cfg seqLen (ticks ++ more) r = out))
  ∧ (∀ cfg seqLen, Spec.continuous_positive cfg →
     (∀ r ds,
        Spec.continuous_running r → ContinuousMode.timeInPhaseRef r = 0 →
        Spec.fills (Spec.continuous_duration cfg (ContinuousMode.phaseRef r)) ds →
        Spec.continuous_one_transition seqLen r
          (ContinuousMode.feed cfg seqLen ds r))
     ∧ (∀ r first pairs more,
        Spec.fills (ContinuousMode.restDuration cfg) first →
        Forall (Spec.continuous_aligned cfg) pairs →
        (1 + length pairs = seqLen)%nat →
        Spec.continuous_running r →
        Spec.continuous_slot r = (ContinuousMode.rest, 0%nat) →
        ContinuousMode.timeInPhaseRef r = 0 →
        let ticks := first ++ concat (Spec.continuous_ticks <$> pairs) in
        let out := ContinuousMode.feed cfg seqLen ticks r in
        ContinuousMode.isRunning out.1 = false
        ∧ out.2 = replicate (2 * length pairs) ContinuousMode.PhaseChange
                  ++ [ContinuousMode.Complete]
        ∧ ContinuousMode.feed cfg seqLen (ticks ++ more) r = out)).
Proof.
  split.
  - intros cfg seqLen Hpos. split.
    + intros r ds Hrun Ht Hf. by apply trial_feed_fills.
    + intros r trials more Hall Hlen Hne Hrun Hslot Ht. cbv zeta. subst seqLen.
      destruct (trial_feed_session cfg (length trials) trials r 0
                  Hpos Hall Hrun Hslot Ht) as [Hstop Hev]; [lia|lia|].
      cbv zeta in Hev.
      split; [by apply trial_session_total|].
      split; [done|]. split; [done|].
      rewrite trial_feed_app, (trial_feed_stopped _ _ more) by done.
      cbn [fst snd]. rewrite app_nil_r.
      by destruct (TrialMode.feed cfg _ _ r).
  - intros cfg seqLen Hpos. split.
    + intros r ds Hrun Ht Hf. by apply continuous_feed_fills.
    + intros r first pairs more Hfirst Hall Hlen Hrun Hslot Ht. cbv zeta.
      destruct (continuous_feed_session cfg seqLen pairs first r 0
                  Hpos Hall Hfirst Hrun Hslot Ht) as [Hstop Hev]; [lia|].
      cbv zeta in Hev. split; [done|]. split; [done|].
      rewrite continuous_feed_app, (continuous_feed_stopped _ _ more) by done.
      cbn [fst snd]. rewrite app_nil_r.
      by destruct (ContinuousMode.feed cfg seqLen _ r).
Qed.

Lemma trial_defaults_positive : Spec.trial_positive TrialMode.defaults.
Proof. unfold Spec.trial_positive. intros []; by vm_compute. Qed.

Lemma fills_replicate (n : nat) (d D : Qc) :
  0 ≤ d → num (Z.of_nat n) * d = D → Spec.fills D (replicate n d).
Proof.
  intros Hd <-. split.
  - by apply Forall_replicate.
  - induction n as [|n IH]; [cbn; change (Z.of_nat 0) with 0%Z;
      rewrite num_0; change (Spec.total []) with 0; ring|].
    cbn [replicate]. rewrite total_cons, IH, num_succ. ring.
Qed.

(** The example scenario of the specification: two targets, ticks of 100 ms. *)
Lemma phase_transition_counting_witness :
  let trial := (replicate 20 (num 100), replicate 10 (num 100),
                replicate 40 (num 100), replicate 5 (num 100)) in
  let ticks := concat (Spec.trial_ticks <$> [trial; trial]) in
  let out := TrialMode.feed TrialMode.defaults 2 ticks TrialMode.started in
  Spec.total ticks = Spec.trial_session_duration TrialMode.defaults 2
  ∧ TrialMode.isRunning out.1 = false
  ∧ out.2 = replicate 7 TrialMode.PhaseChange ++ [TrialMode.Complete]
  ∧ TrialMode.feed TrialMode.defaults 2 (ticks ++ [num 100]) TrialMode.started = out.
Proof.
  intros trial.
  assert (Spec.trial_aligned TrialMode.defaults trial) as Ht.
  { repeat split; try (apply Forall_replicate; by vm_compute);
      apply fills_replicate; solve [by vm_compute | qc_compute]. }
  apply (proj2 (proj1 phase_transition_counting TrialMode.defaults 2%nat
                  trial_defaults_positive) TrialMode.started [trial; trial]
               [num 100]).
  - constructor; [exact Ht|constructor; [exact Ht|constructor]].
  - reflexivity.
  - lia.
  - by split.
  - reflexivity.
  - reflexivity.
Defined.

(** C2, as stated, fails: ticks that add up to the session duration but
    overshoot the phase boundaries lose the overshoot.  One target, default
    durations (7500 ms in all), five ticks of 1500 ms: the machine is still
    running, in the execution phase, and no [Complete] event occurred. *)
Lemma phase_transition_counting_counterexample :
  let ds := replicate 5 (num 1500) in
  let out := TrialMode.feed TrialMode.defaults 1 ds TrialMode.started in
  Spec.nonneg ds
  ∧ Spec.total ds = Spec.trial_session_duration TrialMode.defaults 1
  ∧ TrialMode.isRunning out.1 = true
  ∧ TrialMode.phaseRef out.1 = TrialMode.execution
  ∧ out.2 = [TrialMode.PhaseChange; TrialMode.PhaseChange].
Proof.
  cbv zeta. split; [apply Forall_replicate; by vm_compute|].
  split; [qc_compute|]. by vm_compute.
Qed.

(** ** Pause and resume *)

(** Resuming runs the start/stop effect, which clears [timeInPhaseRef]: the
    time accumulated in the current phase before the pause is lost. *)
Lemma continuous_resume_resets cfg seqLen r :
  ContinuousMode.isRunning r = true → ContinuousMode.isPaused r = false →
  ContinuousMode.timeInPhaseRef
    (ContinuousMode.run cfg seqLen [ContinuousMode.Pause; ContinuousMode.Pause] r).1
  = 0.
Proof. destruct r as [[] [] ? ? ? ? ? ? ?]; intros; try discriminate; reflexivity. Qed.

Lemma periodic_resume_resets cfg seqLen r :
  PeriodicMode.isRunning r = true → PeriodicMode.isPaused r = false →
  PeriodicMode.timeInPhaseRef
    (PeriodicMode.run cfg seqLen [PeriodicMode.Pause; PeriodicMode.Pause] r).1
  = 0.
Proof.
  destruct r as [[] [] ? ? ? ? ? ? ? ? ? ? ?]; intros; try discriminate;
    reflexivity.
Qed.

(** C1. Pause then resume in the middle of a phase, continuous paradigm and
    periodic paradigm: frames at 1000 and 1100 ms, a pause, a resume, frames
    at 5000 and 5100 ms.  The code ends with 100 ms in the phase; the same
    frames with the paused interval cut out (1000, 1100, 1100, 1200) end with
    200 ms. *)
Theorem pause_resume_loses_time_in_phase :
  ContinuousMode.timeInPhaseRef
    (ContinuousMode.run ContinuousMode.defaults 50
       [ContinuousMode.Start; ContinuousMode.Frame (num 1000);
        ContinuousMode.Frame (num 1100);
        ContinuousMode.Pause; ContinuousMode.Pause;
        ContinuousMode.Frame (num 5000); ContinuousMode.Frame (num 5100)]
       ContinuousMode.initial).1 = num 100
  ∧ ContinuousMode.timeInPhaseRef
    (ContinuousMode.run ContinuousMode.defaults 50
       [ContinuousMode.Start; ContinuousMode.Frame (num 1000);
        ContinuousMode.Frame (num 1100);
        ContinuousMode.Frame (num 1100); ContinuousMode.Frame (num 1200)]
       ContinuousMode.initial).1 = num 200
  ∧ PeriodicMode.timeInPhaseRef
    (PeriodicMode.run PeriodicMode.defaults 20
       [PeriodicMode.Start; PeriodicMode.Frame (num 1000);
        PeriodicMode.Frame (num 1100);
        PeriodicMode.Pause; PeriodicMode.Pause;
        PeriodicMode.Frame (num 5000); PeriodicMode.Frame (num 5100)]
       PeriodicMode.initial).1 = num 100
  ∧ PeriodicMode.timeInPhaseRef
    (PeriodicMode.run PeriodicMode.defaults 20
       [PeriodicMode.Start; PeriodicMode.Frame (num 1000);
        PeriodicMode.Frame (num 1100);
        PeriodicMode.Frame (num 1100); PeriodicMode.Frame (num 1200)]
       PeriodicMode.initial).1 = num 200.
Proof. repeat split; qc_compute. Qed.

(** ** Balanced block sequence *)

Lemma randomIndex_lt random m c :
  Spec.valid_random random → (0 < m)%nat →
  (TrialMode.randomIndex random m c < m)%nat.
Proof.
  intros Hv Hm. destruct (Hv c) as [H0 H1].
  unfold TrialMode.randomIndex, Num.floor.
  set (x := random c * num (Z.of_nat m)).
  assert (0 ≤ Qfloor x)%Z as Hlo.
  { change 0%Z with (Qfloor 0). apply Qfloor_resp_le. subst x. to_Q.
    apply Qmult_le_0_compat; [done|]. rewrite <- (Zle_Qle 0). lia. }
  assert (Qfloor x < Z.of_nat m)%Z as Hhi.
  { apply floor_lt_iff. subst x. to_Q.
    assert (0 < inject_Z (Z.of_nat m))%Q by (rewrite <- (Zlt_Qlt 0); lia).
    apply Qlt_le_trans with (1 * inject_Z (Z.of_nat m))%Q;
      [by apply Qmult_lt_compat_r | lra]. }
  lia.
Qed.

Lemma randomIndex_0 random c : TrialMode.randomIndex random 0 c = 0%nat.
Proof.
  unfold TrialMode.randomIndex. change (Z.of_nat 0) with 0%Z.
  by rewrite num_0, Qcmult_0_r.
Qed.

Lemma js_get_lookup (a : list Js.elem) i x : a !! i = Some x → Js.get a i = x.
Proof. intros H. unfold Js.get. by rewrite H. Qed.

Lemma js_set_in_range (a : list Js.elem) i v :
  (i < length a)%nat → Js.set a i v = <[i:=v]> a.
Proof. intros. unfold Js.set. by rewrite decide_True. Qed.

(** Swapping two positions inside the array permutes it. *)
Lemma js_swap_Permutation (a : list Js.elem) i j :
  (i < length a)%nat → (j < length a)%nat → Js.swap a i j ≡ₚ a.
Proof.
  intros Hi Hj. unfold Js.swap.
  destruct (lookup_lt_is_Some_2 a i Hi) as [y Hy].
  destruct (lookup_lt_is_Some_2 a j Hj) as [x Hx].
  rewrite (js_get_lookup _ _ _ Hy), (js_get_lookup _ _ _ Hx).
  rewrite (js_set_in_range a) by done.
  rewrite js_set_in_range by (by rewrite length_insert).
  by apply Permutation_insert_swap.
Qed.

Lemma shuffle_from_Permutation random i a c :
  Spec.valid_random random → (i < length a)%nat →
  (TrialMode.shuffle_from random i a c).1 ≡ₚ a.
Proof.
  intros Hv. revert a c. induction i as [|i IH]; intros a c Hi; [done|].
  cbn [TrialMode.shuffle_from].
  pose proof (randomIndex_lt random (S i + 1) c Hv ltac:(lia)) as Hj.
  assert (Js.swap a (S i) (TrialMode.randomIndex random (S i + 1) c) ≡ₚ a) as Hp
    by (apply js_swap_Permutation; lia).
  rewrite IH; [done|]. rewrite Hp. lia.
Qed.

Lemma shuffle_Permutation random a c :
  Spec.valid_random random → (TrialMode.shuffle random a c).1 ≡ₚ a.
Proof.
  intros Hv. unfold TrialMode.shuffle. destruct a as [|x a]; [done|].
  apply shuffle_from_Permutation; [done|]. cbn [length]. lia.
Qed.

Lemma repair_Permutation random sequence block c :
  Spec.valid_random random → (2 ≤ length block)%nat →
  (TrialMode.repair random sequence block c).1 ≡ₚ block.
Proof.
  intros Hv Hlen. unfold TrialMode.repair. case_decide; [|done].
  cbn [fst].
  pose proof (randomIndex_lt random (length block - 1) c Hv ltac:(lia)).
  apply js_swap_Permutation; lia.
Qed.

(** The loop appends whole blocks, each a permutation of the pool, until
    the sequence is long enough. *)
Lemma fill_blocks random fuel pool numTargets sequence c s :
  Spec.valid_random random → (2 ≤ length pool)%nat →
  TrialMode.fill random fuel pool numTargets sequence c = Some s →
  ∃ blocks, s = sequence ++ concat blocks
            ∧ Forall (λ b, b ≡ₚ pool) blocks
            ∧ (numTargets ≤ length s)%nat.
Proof.
  intros Hv Hk. revert sequence c.
  induction fuel as [|fuel IH]; intros sequence c; cbn [TrialMode.fill];
    (case_decide as Hlt;
      [|intros [= <-]; exists []; rewrite app_nil_r;
        split; [done|]; split; [constructor|lia]]).
  { discriminate. }
  pose proof (shuffle_Permutation random pool c Hv) as Hs.
  destruct (TrialMode.shuffle random pool c) as [block c1]. cbn [fst] in Hs.
  pose proof (repair_Permutation random sequence block c1 Hv) as Hr.
  destruct (TrialMode.repair random sequence block c1) as [block' c2].
  cbn [fst] in Hr. rewrite Hs in Hr. specialize (Hr Hk).
  intros Hfill. destruct (IH _ _ Hfill) as (blocks & -> & Hall & Hlen).
  exists (block' :: blocks). cbn [concat]. rewrite <- app_assoc.
  split; [done|]. split; [by constructor|by rewrite app_assoc].
Qed.

Lemma fill_is_Some random fuel pool numTargets sequence c :
  Spec.valid_random random → (2 ≤ length pool)%nat →
  (numTargets ≤ length sequence + fuel)%nat →
  is_Some (TrialMode.fill random fuel pool numTargets sequence c).
Proof.
  intros Hv Hk. revert sequence c.
  induction fuel as [|fuel IH]; intros sequence c Hn; cbn [TrialMode.fill];
    (case_decide as Hlt; [|by eexists]).
  { lia. }
  pose proof (shuffle_Permutation random pool c Hv) as Hs.
  destruct (TrialMode.shuffle random pool c) as [block c1]. cbn [fst] in Hs.
  pose proof (repair_Permutation random sequence block c1 Hv) as Hr.
  destruct (TrialMode.repair random sequence block c1) as [block' c2].
  cbn [fst] in Hr. rewrite Hs in Hr. specialize (Hr Hk).
  apply IH. rewrite length_app, Hr. lia.
Qed.

(** Counting a name in blocks. *)
Lemma occurrences_app x l1 l2 :
  Spec.occurrences x (l1 ++ l2) = (Spec.occurrences x l1 + Spec.occurrences x l2)%nat.
Proof. unfold Spec.occurrences. by rewrite filter_app, length_app. Qed.

Lemma occurrences_absent x (l : list Js.elem) :
  Some x ∉ l → Spec.occurrences x l = 0%nat.
Proof.
  unfold Spec.occurrences. induction l as [|e l IH]; intros Hnin; [done|].
  apply not_elem_of_cons in Hnin as [Hne Hnin].
  rewrite filter_cons_False by congruence. by apply IH.
Qed.

Lemma occurrences_NoDup x (names : list string) :
  NoDup names → x ∈ names → Spec.occurrences x (Some <$> names) = 1%nat.
Proof.
  unfold Spec.occurrences.
  induction 1 as [|y names Hy Hnd IH]; intros Hin; [by apply elem_of_nil in Hin|].
  rewrite fmap_cons. apply elem_of_cons in Hin as [->|Hin].
  - rewrite filter_cons_True by done. cbn [length]. f_equal.
    apply occurrences_absent. by intros Hin%(list_elem_of_fmap_inj_2 Some).
  - rewrite filter_cons_False; [by apply IH|]. intros [= ->]. done.
Qed.

Lemma occurrences_block x names block :
  NoDup names → x ∈ names → block ≡ₚ Some <$> names →
  Spec.occurrences x block = 1%nat.
Proof.
  intros Hnd Hin Hp. rewrite <- (occurrences_NoDup x names Hnd Hin).
  unfold Spec.occurrences. by rewrite Hp.
Qed.

Lemma occurrences_take_le x n l :
  (Spec.occurrences x (take n l) ≤ Spec.occurrences x l)%nat.
Proof.
  rewrite <- (take_drop n l) at 2. rewrite occurrences_app. lia.
Qed.

(** A prefix of a run of blocks holds every name either [n / k] times or
    once more, and exactly [n / k] times when the prefix ends on a block
    boundary. *)
Lemma occurrences_take_concat x (names : list string) (blocks : list (list Js.elem)) n :
  NoDup names → x ∈ names →
  Forall (λ b, b ≡ₚ Some <$> names) blocks →
  (n ≤ length names * length blocks)%nat →
  let k := length names in
  let occ := Spec.occurrences x (take n (concat blocks)) in
  (occ = n / k ∨ occ = n / k + 1)%nat ∧ (n mod k = 0 → occ = n / k)%nat.
Proof.
  intros Hnd Hin Hall. cbv zeta.
  assert (0 < length names)%nat as Hk.
  { destruct names; [by apply elem_of_nil in Hin|cbn; lia]. }
  revert n. induction Hall as [|b blocks Hb Hall IH]; intros n Hn.
  { cbn [length] in Hn. assert (n = 0)%nat as -> by lia.
    rewrite Nat.Div0.div_0_l. cbn. auto. }
  cbn [concat length] in *.
  assert (length b = length names) as Hlen by (by rewrite Hb, length_fmap).
  rewrite take_app, occurrences_app, Hlen.
  destruct (decide (n < length names)%nat) as [Hlt|Hge].
  - replace (n - length names)%nat with 0%nat by lia. rewrite take_0.
    change (Spec.occurrences x []) with 0%nat. rewrite Nat.add_0_r.
    rewrite Nat.div_small, Nat.mod_small by lia.
    pose proof (occurrences_take_le x n b) as Hle.
    rewrite (occurrences_block x names b Hnd Hin Hb) in Hle.
    split; [lia|]. intros ->. by rewrite take_0.
  - rewrite take_ge by lia.
    rewrite (occurrences_block x names b Hnd Hin Hb).
    destruct (IH (n - length names)%nat) as [Hocc Hmod]; [lia|].
    assert (n = 1 * length names + (n - length names))%nat as Hsplit by lia.
    assert (n / length names = 1 + (n - length names) / length names)%nat as Hdiv.
    { rewrite Hsplit at 1. rewrite Nat.div_add_l by lia. done. }
    assert (n mod length names = (n - length names) mod length names)%nat as Hm.
    { rewrite Hsplit at 1. rewrite Nat.add_comm, Nat.Div0.mod_add. done. }
    rewrite Hdiv, Hm. split; [lia|]. intros H0. rewrite (Hmod H0). lia.
Qed.

(** Every entry of a prefix of a run of blocks is a pool member. *)
Lemma take_concat_members (names : list string) (blocks : list (list Js.elem)) n e :
  Forall (λ b, b ≡ₚ Some <$> names) blocks →
  e ∈ take n (concat blocks) → ∃ x, e = Some x ∧ x ∈ names.
Proof.
  intros Hall He. apply elem_of_take in He as (i & He & _).
  apply list_elem_of_lookup_2 in He.
  induction Hall as [|b blocks Hb Hall IH]; [by apply elem_of_nil in He|].
  cbn [concat] in He. apply elem_of_app in He as [He|He]; [|by apply IH].
  rewrite Hb in He. by apply list_elem_of_fmap in He.
Qed.

Lemma ceil_div_inexact n k :
  (0 < k)%nat → (n mod k ≠ 0)%nat → Spec.ceil_div n k = (n / k + 1)%nat.
Proof.
  intros Hk Hmod. unfold Spec.ceil_div. symmetry.
  apply (Nat.div_unique _ _ _ (n mod k - 1)).
  - pose proof (Nat.mod_upper_bound n k). lia.
  - pose proof (Nat.div_mod_eq n k). lia.
Qed.

(** The generator on a pool of at least two distinct names: it returns a
    sequence of the requested length, made of pool members only, in which
    every pool member occurs [floor (n / k)] or [ceil (n / k)] times. *)
Theorem balancedSequence_balanced random (availablePoses : list string)
    (numTargets : nat) :
  Spec.valid_random random → NoDup availablePoses →
  (2 ≤ length availablePoses)%nat →
  ∃ s, TrialMode.balancedSequence random availablePoses numTargets = Some s
       ∧ length s = numTargets
       ∧ (∀ e, e ∈ s → ∃ x, e = Some x ∧ x ∈ availablePoses)
       ∧ (∀ x, x ∈ availablePoses →
            let k := length availablePoses in
            (Spec.occurrences x s = numTargets / k
             ∨ Spec.occurrences x s = Spec.ceil_div numTargets k)%nat).
Proof.
  intros Hv Hnd Hk. unfold TrialMode.balancedSequence.
  rewrite decide_True by lia.
  destruct (fill_is_Some random numTargets (Some <$> availablePoses) numTargets [] 0 Hv)
    as [s Hs]; [by rewrite length_fmap|cbn; lia|].
  rewrite Hs. cbn [fmap option_fmap option_map].
  assert (2 ≤ length (Some <$> availablePoses))%nat as Hk'
    by (by rewrite length_fmap).
  destruct (fill_blocks _ _ _ _ _ _ _ Hv Hk' Hs) as (blocks & -> & Hall & Hlen).
  rewrite app_nil_l in *. eexists. split; [done|].
  split; [rewrite length_take; lia|].
  split; [intros e He; by eapply take_concat_members|].
  intros x Hx. cbv zeta.
  destruct (occurrences_take_concat x availablePoses blocks numTargets Hnd Hx Hall)
    as [Hocc Hmod].
  { assert (length (concat blocks) = length availablePoses * length blocks)%nat
      as <-; [|done].
    clear -Hall. induction Hall as [|b blocks Hb Hall IH]; [cbn; lia|].
    cbn [concat length]. rewrite length_app, IH, Hb, length_fmap. lia. }
  cbv zeta in Hocc, Hmod.
  destruct (decide (numTargets mod length availablePoses = 0)%nat) as [H0|Hn0];
    [left; by apply Hmod|].
  rewrite ceil_div_inexact by (done || lia). lia.
Qed.

Lemma single_pool_sequence random (x : string) :
  TrialMode.balancedSequence random [x] 2 = Some [Some x; None].
Proof.
  unfold TrialMode.balancedSequence. rewrite decide_True by (cbn; lia).
  cbn [fmap list_fmap TrialMode.fill length].
  rewrite decide_True by lia.
  change (TrialMode.shuffle random [Some x] 0) with ([Some x], 0%nat).
  unfold TrialMode.repair at 1. rewrite decide_False by (cbn; lia).
  cbn [app length]. rewrite decide_True by lia.
  change (TrialMode.shuffle random [Some x] 0) with ([Some x], 0%nat).
  unfold TrialMode.repair. rewrite decide_True by (split; [cbn; lia|done]).
  cbn [length Nat.sub]. rewrite randomIndex_0.
  change (Js.swap [Some x] 0 (1 + 0)) with [None; Some x].
  cbn [app length]. rewrite decide_False by lia. reflexivity.
Qed.

(** C10. One enabled pose and two targets: the second block starts with
    the entry that ends the sequence, the repair swaps position 0 with
    position 1 of a one-element block, and the sequence gets an [undefined]
    entry, whatever [Math.random] returns. *)
Theorem single_pool_undefined_entry (random : nat → Qc) :
  TrialMode.balancedSequence random ["open"] 2 = Some [Some "open"; None]
  ∧ ¬ (∀ e : Js.elem, e ∈ [Some "open"; None] →
         ∃ x : string, e = Some x ∧ x ∈ ["open"]).
Proof.
  split; [apply single_pool_sequence|].
  intros H. destruct (H None) as (x & Hx & _); [|discriminate].
  apply elem_of_cons. right. apply elem_of_cons. by left.
Qed.

(** C5. One enabled pose and two targets: the sequence has length 2 but the
    only pool member occurs once, while [floor (2 / 1)] and [ceil (2 / 1)]
    are both 2. *)
Theorem single_pool_unbalanced (random : nat → Qc) :
  ∃ s, TrialMode.balancedSequence random ["open"] 2 = Some s
       ∧ length s = 2%nat
       ∧ Spec.occurrences "open" s = 1%nat
       ∧ (2 / 1 = 2)%nat ∧ Spec.ceil_div 2 1 = 2%nat.
Proof.
  exists [Some "open"; None]. split; [apply single_pool_sequence|].
  by vm_compute.
Qed.

(** ** Periodic paradigm: beats *)

Lemma periodic_run_app cfg seqLen is1 is2 r :
  PeriodicMode.run cfg seqLen (is1 ++ is2) r =
  ((PeriodicMode.run cfg seqLen is2 (PeriodicMode.run cfg seqLen is1 r).1).1,
   (PeriodicMode.run cfg seqLen is1 r).2
   ++ (PeriodicMode.run cfg seqLen is2 (PeriodicMode.run cfg seqLen is1 r).1).2).
Proof.
  revert r. induction is1 as [|i is1 IH]; intros r.
  { cbn. by destruct (PeriodicMode.run cfg seqLen is2 r). }
  rewrite <- app_comm_cons. cbn [PeriodicMode.run].
  destruct (PeriodicMode.step cfg seqLen i r) as [r1 e1].
  rewrite IH.
  destruct (PeriodicMode.run cfg seqLen is1 r1) as [r2 e2]. cbn [fst snd].
  destruct (PeriodicMode.run cfg seqLen is2 r2) as [r3 e3]. cbn [fst snd].
  by rewrite app_assoc.
Qed.

Lemma beats_app es1 es2 :
  PeriodicMode.beats (es1 ++ es2) = PeriodicMode.beats es1 ++ PeriodicMode.beats es2.
Proof. unfold PeriodicMode.beats. apply omap_app. Qed.

(** One frame of an active phase: the beat follows [beat_step]; the phase
    goes on while the time since its entry is below [activeDuration] and is
    over otherwise. *)
Lemma periodic_active_frame cfg seqLen T0 last ts r :
  Spec.active_since T0 last r → last ≠ 0 →
  let out := PeriodicMode.step cfg seqLen (PeriodicMode.Frame ts) r in
  let b := Spec.beat_step (PeriodicMode.beatInterval cfg) ts (Spec.periodic_view r) in
  PeriodicMode.beats out.2 = b.2
  ∧ (ts - T0 < PeriodicMode.activeDuration cfg →
     Spec.active_since T0 ts out.1 ∧ Spec.periodic_view out.1 = b.1)
  ∧ (PeriodicMode.activeDuration cfg ≤ ts - T0 → Spec.active_over out.1).
Proof.
  intros (Hr & Hp & Hph & Hl & Ht) Hne.
  destruct r as [run pau sta lastr start p t i moving count lastBeat trans log].
  cbn in Hr, Hp, Hph, Hl, Ht. subst run pau p lastr.
  assert (t + (ts - last) = ts - T0) as Hnew by (rewrite Ht; ring).
  unfold Spec.beat_step, Spec.periodic_view, Spec.active_since, Spec.active_over.
  cbn [PeriodicMode.step PeriodicMode.isRunning PeriodicMode.isPaused andb negb
       PeriodicMode.lastBeatTimeRef PeriodicMode.isMovingToTargetRef
       PeriodicMode.beatCountRef fst snd].
  unfold PeriodicMode.animate.
  cbn [PeriodicMode.lastTimestampRef Js.falsy]. rewrite bool_decide_eq_false_2 by done.
  unfold PeriodicMode.advance, PeriodicMode.phaseBody, PeriodicMode.beatCheck,
    PeriodicMode.phaseTransition.
  cbn -[Qcplus Qcminus Qcle Logger.logDue].
  rewrite !Hnew.
  destruct (decide (PeriodicMode.beatInterval cfg ≤ ts - lastBeat)) as [Hb|Hb];
    destruct (Logger.logDue _ _ _);
    (destruct (decide (PeriodicMode.activeDuration cfg ≤ ts - T0)) as [He|He];
     [try case_decide; cbn -[Qcplus Qcminus Qcle];
      (split; [done|]; split; [intros Hlt; exfalso; by apply (Qclt_not_le _ _ Hlt)|];
       intros _; auto)
     |cbn -[Qcplus Qcminus Qcle]; split; [done|]; split; [done|];
      intros Hge; by destruct He]).
Qed.

(** The frames of an active phase before its end follow [beat_run]. *)
Lemma periodic_active_frames cfg seqLen T0 fs : ∀ last r,
  Spec.active_since T0 last r → 0 < T0 → T0 ≤ last →
  Spec.frames_within T0 (T0 + PeriodicMode.activeDuration cfg) fs →
  let out := PeriodicMode.run cfg seqLen (PeriodicMode.Frame <$> fs) r in
  let b := Spec.beat_run (PeriodicMode.beatInterval cfg) fs (Spec.periodic_view r) in
  PeriodicMode.beats out.2 = b.2 ∧ Spec.periodic_view out.1 = b.1
  ∧ ∃ last', T0 ≤ last' ∧ Spec.active_since T0 last' out.1.
Proof.
  induction fs as [|ts fs IH]; intros last r Hact HT0 Hlast Hfs.
  { cbn. split; [done|]. split; [done|]. by exists last. }
  apply Forall_cons in Hfs as [[Hlo Hhi] Hfs].
  rewrite fmap_cons. cbn [PeriodicMode.run Spec.beat_run].
  assert (last ≠ 0) as Hne by (intros ->; qc_lra).
  destruct (periodic_active_frame cfg seqLen T0 last ts r Hact Hne)
    as (Hb & Hgo & _).
  destruct Hgo as [Hact1 Hv1]; [qc_lra|].
  destruct (PeriodicMode.step cfg seqLen (PeriodicMode.Frame ts) r) as [r1 e1].
  cbn [fst snd] in *.
  destruct (Spec.beat_step _ ts _) as [v1 b1]. cbn [fst snd] in *.
  destruct (IH ts r1 Hact1 HT0 Hlo Hfs) as (Hb2 & Hv2 & Hex).
  destruct (PeriodicMode.run cfg seqLen _ r1) as [r2 e2]. cbn [fst snd] in *.
  rewrite Hv1 in Hb2, Hv2.
  destruct (Spec.beat_run _ fs v1) as [v2 b2]. cbn [fst snd] in *.
  rewrite beats_app, Hb, Hb2. done.
Qed.

Lemma beat_run_app interval fs1 fs2 v :
  Spec.beat_run interval (fs1 ++ fs2) v =
  ((Spec.beat_run interval fs2 (Spec.beat_run interval fs1 v).1).1,
   (Spec.beat_run interval fs1 v).2
   ++ (Spec.beat_run interval fs2 (Spec.beat_run interval fs1 v).1).2).
Proof.
  revert v. induction fs1 as [|ts fs1 IH]; intros v.
  { cbn. by destruct (Spec.beat_run interval fs2 v). }
  rewrite <- app_comm_cons. cbn [Spec.beat_run].
  destruct (Spec.beat_step interval ts v) as [v1 b1]. rewrite IH.
  destruct (Spec.beat_run interval fs1 v1) as [v2 b2]. cbn [fst snd].
  destruct (Spec.beat_run interval fs2 v2) as [v3 b3]. cbn [fst snd].
  by rewrite app_assoc.
Qed.

(** Frames less than one interval after the last beat fire no beat. *)
Lemma beat_run_quiet interval fs v :
  Forall (λ ts, ts - v.1.1 < interval) fs →
  Spec.beat_run interval fs v = (v, []).
Proof.
  induction 1 as [|ts fs Hts Hfs IH]; [done|].
  cbn [Spec.beat_run]. unfold Spec.beat_step.
  rewrite decide_False by (by apply Qclt_not_le). by rewrite IH.
Qed.

Lemma beat_step_fires interval ts v :
  interval ≤ ts - v.1.1 →
  Spec.beat_step interval ts v = ((ts, negb v.1.2, (v.2 + 1)%nat), [negb v.1.2]).
Proof. intros H. unfold Spec.beat_step. by rewrite decide_True. Qed.

Lemma num_lt_nat (c n : nat) : num (Z.of_nat c) < num (Z.of_nat n) → (c < n)%nat.
Proof.
  unfold Qclt. rewrite !this_lit, <- Zlt_Qlt. lia.
Qed.

(** With beats 1000 ms apart in a phase of 3000 ms entered at [T0], the beat
    count tracks the beats fired and the last beat is at least
    [1000 * count] after the entry. *)
Lemma beat_run_bound T0 fs : ∀ v,
  Spec.frames_within T0 (T0 + num 3000) fs →
  T0 + num 1000 * num (Z.of_nat v.2) ≤ v.1.1 → v.1.1 < T0 + num 3000 →
  let out := Spec.beat_run (num 1000) fs v in
  T0 + num 1000 * num (Z.of_nat out.1.2) ≤ out.1.1.1
  ∧ out.1.1.1 < T0 + num 3000
  ∧ (length out.2 + v.2 = out.1.2)%nat.
Proof.
  induction fs as [|ts fs IH]; intros v Hfs Hlo Hhi; [by cbn|].
  apply Forall_cons in Hfs as [[Hts0 Hts1] Hfs].
  cbn [Spec.beat_run]. unfold Spec.beat_step.
  destruct v as [[lb m] c]. cbn [fst snd] in *.
  destruct (decide (num 1000 ≤ ts - lb)) as [Hb|Hb].
  - specialize (IH (ts, negb m, (c + 1)%nat) Hfs). cbn [fst snd] in IH.
    destruct IH as (H1 & H2 & H3); [|done|].
    { rewrite Nat.add_1_r, num_succ. qc_lra. }
    destruct (Spec.beat_run (num 1000) fs _) as [v2 b2]. cbn [fst snd app length] in *.
    split; [done|]. split; [done|]. lia.
  - specialize (IH (lb, m, c) Hfs Hlo Hhi). cbn [fst snd] in IH.
    destruct (Spec.beat_run (num 1000) fs _) as [v2 b2]. by cbn [fst snd app] in *.
Qed.

Lemma beat_count_bound T0 lb (c : nat) :
  T0 + num 1000 * num (Z.of_nat c) ≤ lb → lb < T0 + num 3000 → (c < 3)%nat.
Proof.
  intros Hlo Hhi. apply num_lt_nat. change (Z.of_nat 3) with 3%Z.
  qc_hyps. to_Q. change (inject_Z 1000) with 1000%Q in *.
  change (inject_Z 3000) with 3000%Q in *. change (inject_Z 3) with 3%Q. lra.
Qed.

Lemma beatInterval_1Hz cfg :
  PeriodicMode.frequency cfg = 1 → PeriodicMode.beatInterval cfg = num 1000.
Proof. intros Hf. unfold PeriodicMode.beatInterval. rewrite Hf. qc_compute. Qed.

(** C3, as the code has it.  Frequency 1 Hz, active phase of 3000 ms entered
    at the frame with timestamp [T0].  When frames land exactly on
    [T0 + 1000], [T0 + 2000] and [T0 + 3000], with any frames in between,
    the active phase fires exactly three beats, setting the direction flag
    to true, false, true, and ends at the last of these frames.  Whatever the
    frames before the end of the phase, it never fires more than three. *)
Theorem periodic_three_beats cfg seqLen (T0 : Qc) r (seg1 seg2 seg3 : list Qc) :
  PeriodicMode.frequency cfg = 1 →
  PeriodicMode.activeDuration cfg = num 3000 →
  0 < T0 → Spec.active_entry T0 r →
  Spec.frames_within T0 (T0 + num 1000) seg1 →
  Spec.frames_within T0 (T0 + num 2000) seg2 →
  Spec.frames_within T0 (T0 + num 3000) seg3 →
  let frames := seg1 ++ [T0 + num 1000] ++ seg2 ++ [T0 + num 2000] ++ seg3 in
  let out := PeriodicMode.run cfg seqLen
               (PeriodicMode.Frame <$> frames ++ [T0 + num 3000]) r in
  PeriodicMode.beats out.2 = [true; false; true]
  ∧ Spec.active_over out.1
  ∧ ∀ fs f, Spec.frames_within T0 (T0 + num 3000) fs →
      (length (PeriodicMode.beats
                 (PeriodicMode.run cfg seqLen
                    (PeriodicMode.Frame <$> fs ++ [f]) r).2) ≤ 3)%nat.
Proof.
  intros Hf HD HT0 [Hact Hview] H1 H2 H3. cbv zeta.
  pose proof (beatInterval_1Hz cfg Hf) as HI.
  assert (∀ fs f, Spec.frames_within T0 (T0 + num 3000) fs →
    let out := PeriodicMode.run cfg seqLen (PeriodicMode.Frame <$> fs ++ [f]) r in
    let b := Spec.beat_run (num 1000) fs (T0, false, 0%nat) in
    PeriodicMode.beats out.2 = b.2 ++ (Spec.beat_step (num 1000) f b.1).2
    ∧ T0 + num 1000 * num (Z.of_nat b.1.2) ≤ b.1.1.1
    ∧ b.1.1.1 < T0 + num 3000 ∧ length b.2 = b.1.2
    ∧ (num 3000 ≤ f - T0 → Spec.active_over out.1)) as Hrun.
  { intros fs f Hfs. cbv zeta. rewrite fmap_app, periodic_run_app. cbn [fst snd].
    destruct (periodic_active_frames cfg seqLen T0 fs T0 r Hact HT0)
      as (Hb & Hv & last' & Hlast' & Hact'); [done|by rewrite HD|].
    cbv zeta in Hb, Hv. rewrite HI, Hview in Hb, Hv.
    destruct (beat_run_bound T0 fs (T0, false, 0%nat) Hfs) as (B1 & B2 & B3).
    { cbn [fst snd]. change (Z.of_nat 0) with 0%Z. rewrite num_0. qc_lra. }
    { cbn [fst snd]. qc_lra. }
    cbv zeta in B1, B2, B3. cbn [snd] in B3. rewrite Nat.add_0_r in B3.
    destruct (PeriodicMode.run cfg seqLen (PeriodicMode.Frame <$> fs) r) as [r1 e1].
    cbn [fst snd] in *.
    assert (last' ≠ 0) as Hne by (intros ->; qc_lra).
    destruct (periodic_active_frame cfg seqLen T0 last' f r1 Hact' Hne)
      as (Hb' & _ & Hend).
    cbv zeta in Hb', Hend. rewrite HI, Hv in Hb'. rewrite HD in Hend.
    cbn [fmap list_fmap PeriodicMode.run].
    destruct (PeriodicMode.step cfg seqLen (PeriodicMode.Frame f) r1) as [r2 e2].
    cbn [fst snd] in *. rewrite app_nil_r, beats_app, Hb, Hb'. done. }
  split; [|split].
  - destruct (Hrun (seg1 ++ [T0 + num 1000] ++ seg2 ++ [T0 + num 2000] ++ seg3)
                   (T0 + num 3000)) as (Hb & _).
    { unfold Spec.frames_within in *. rewrite !Forall_app, !Forall_singleton.
      repeat split; try done; try qc_lra.
      - eapply Forall_impl; [exact H1|]. intros ts [? ?]. split; [done|qc_lra].
      - eapply Forall_impl; [exact H2|]. intros ts [? ?]. split; [done|qc_lra]. }
    cbv zeta in Hb. rewrite Hb. clear Hb Hrun.
    rewrite !beat_run_app. cbn [fst snd].
    rewrite (beat_run_quiet _ seg1).
    2:{ eapply Forall_impl; [exact H1|]. intros ts [? ?]. cbn [fst snd]. qc_lra. }
    cbn [fst snd Spec.beat_run]. rewrite beat_step_fires by (cbn [fst snd]; qc_lra).
    cbn [fst snd negb].
    rewrite (beat_run_quiet _ seg2).
    2:{ eapply Forall_impl; [exact H2|]. intros ts [? ?]. cbn [fst snd]. qc_lra. }
    cbn [fst snd Spec.beat_run]. rewrite beat_step_fires by (cbn [fst snd]; qc_lra).
    cbn [fst snd negb].
    rewrite (beat_run_quiet _ seg3).
    2:{ eapply Forall_impl; [exact H3|]. intros ts [? ?]. cbn [fst snd]. qc_lra. }
    cbn [fst snd]. rewrite beat_step_fires by (cbn [fst snd]; qc_lra).
    reflexivity.
  - destruct (Hrun (seg1 ++ [T0 + num 1000] ++ seg2 ++ [T0 + num 2000] ++ seg3)
                   (T0 + num 3000)) as (_ & _ & _ & _ & Hend).
    { unfold Spec.frames_within in *. rewrite !Forall_app, !Forall_singleton.
      repeat split; try done; try qc_lra.
      - eapply Forall_impl; [exact H1|]. intros ts [? ?]. split; [done|qc_lra].
      - eapply Forall_impl; [exact H2|]. intros ts [? ?]. split; [done|qc_lra]. }
    apply Hend. qc_lra.
  - intros fs f Hfs. destruct (Hrun fs f Hfs) as (Hb & B1 & B2 & B3 & _).
    cbv zeta in Hb. rewrite Hb, length_app.
    pose proof (beat_count_bound _ _ _ B1 B2) as Hc.
    assert (length (Spec.beat_step (num 1000) f
              (Spec.beat_run (num 1000) fs (T0, false, 0%nat)).1).2 ≤ 1)%nat.
    { unfold Spec.beat_step. case_decide; cbn; lia. }
    lia.
Qed.

(** The prep-to-active transition leaves the machine in the entry state of
    the active phase. *)
Lemma periodic_enters_active cfg seqLen last ts r :
  PeriodicMode.isRunning r = true → PeriodicMode.isPaused r = false →
  PeriodicMode.phaseRef r = PeriodicMode.prep →
  PeriodicMode.lastTimestampRef r = Some last → last ≠ 0 →
  PeriodicMode.prepDuration cfg ≤ PeriodicMode.timeInPhaseRef r + (ts - last) →
  Spec.active_entry ts (PeriodicMode.step cfg seqLen (PeriodicMode.Frame ts) r).1.
Proof.
  intros Hr Hp Hph Hl Hne Hge.
  destruct r as [run pau sta lastr start p t i moving count lastBeat trans log].
  cbn in Hr, Hp, Hph, Hl, Hge. subst run pau p lastr.
  unfold Spec.active_entry, Spec.active_since, Spec.periodic_view.
  cbn [PeriodicMode.step PeriodicMode.isRunning PeriodicMode.isPaused andb negb].
  unfold PeriodicMode.animate.
  cbn [PeriodicMode.lastTimestampRef Js.falsy]. rewrite bool_decide_eq_false_2 by done.
  unfold PeriodicMode.advance, PeriodicMode.phaseBody, PeriodicMode.phaseTransition.
  cbn -[Qcplus Qcminus Qcle Logger.logDue].
  rewrite decide_True by done.
  destruct (Logger.logDue _ _ _); cbn -[Qcplus Qcminus Qcle];
    (repeat split; try done; ring).
Qed.

Lemma periodic_three_beats_witness :
  let cfg := PeriodicMode.mkSettings (num 2000) (num 3000) 1 (num 300) (num 30) in
  let T0 := num 3000 in
  let r := (PeriodicMode.run cfg 5
              [PeriodicMode.Start; PeriodicMode.Frame (num 1000);
               PeriodicMode.Frame T0] PeriodicMode.initial).1 in
  let frames := [num 3500] ++ [T0 + num 1000] ++ [] ++ [T0 + num 2000]
                ++ [num 5100; num 5900] in
  PeriodicMode.beats
    (PeriodicMode.run cfg 5 (PeriodicMode.Frame <$> frames ++ [T0 + num 3000]) r).2
  = [true; false; true].
Proof.
  intros cfg T0 r.
  refine (proj1 (periodic_three_beats cfg 5 T0 r [num 3500] [] [num 5100; num 5900]
                   _ _ _ _ _ _ _)).
  - reflexivity.
  - reflexivity.
  - by vm_compute.
  - repeat split; try (by vm_compute); qc_compute.
  - repeat constructor; by vm_compute.
  - constructor.
  - repeat constructor; by vm_compute.
Defined.

(** C3, as stated, fails when frames do not land on the beat boundaries: the
    next beat is due 1000 ms after the frame that fired the last one.  Active
    phase entered at 3000 ms; frames at 4001, 5001 and 6000 ms: two beats,
    and the phase is over. *)
Lemma periodic_three_beats_counterexample :
  let cfg := PeriodicMode.mkSettings (num 2000) (num 3000) 1 (num 300) (num 30) in
  let r := (PeriodicMode.run cfg 5
              [PeriodicMode.Start; PeriodicMode.Frame (num 1000);
               PeriodicMode.Frame (num 3000)] PeriodicMode.initial).1 in
  let out := PeriodicMode.run cfg 5
               (PeriodicMode.Frame <$> [num 4001; num 5001; num 6000]) r in
  PeriodicMode.phaseRef r = PeriodicMode.active
  ∧ PeriodicMode.timeInPhaseRef r = 0
  ∧ PeriodicMode.beats out.2 = [true; false]
  ∧ PeriodicMode.phaseRef out.1 = PeriodicMode.prep
  ∧ PeriodicMode.currentTrialIndexRef out.1 = 1%nat.
Proof.
  cbv zeta. split; [by vm_compute|]. split; [qc_compute|].
  split; [by vm_compute|]. split; by vm_compute.
Qed.

(** ** The time in the phase is never negative

    With non-negative delta times the accumulated time stays non-negative,
    which is the side condition of the logger equivalence. *)
Lemma continuous_time_nonneg cfg seqLen ts d r :
  0 ≤ ContinuousMode.timeInPhaseRef r → 0 ≤ d →
  0 ≤ ContinuousMode.timeInPhaseRef (ContinuousMode.advance cfg seqLen ts d r).1.
Proof.
  intros Ht Hd. unfold ContinuousMode.advance. cbv zeta.
  destruct r as [run pau sta last start p t i log]. cbn in Ht.
  cbn -[Qcplus Qcminus Qcle Logger.logDue].
  assert (0 ≤ t + d) by qc_lra.
  destruct (Logger.logDue _ _ _); case_decide; try done;
    destruct p; try case_decide; done.
Qed.
